(** * Subresource-integrity plugin: a shallow embedding of [src/index.js]

    The development follows the source file top to bottom:
    - [makePlaceholder] and [findDepChunks] (lines 5-16),
    - the loader-code hooks [jsonpScriptPlugin] and [localVarsPlugin]
      (lines 18-55),
    - the constructor [SubresourceIntegrityPlugin] (lines 57-67),
    - [computeIntegrity] (lines 73-78),
    - the [optimize-assets] handler with [processChunkRecursive]
      (lines 93-150),
    - the markup-tag helpers [getTagSrc], [filterTag], [processTag]
      (lines 152-195).

    JavaScript objects used as dictionaries are finite maps, the chunk
    graph is a store of chunk objects addressed by reference, and
    everything that can throw returns an [outcome]. *)

From Stdlib Require Import String Ascii List Arith Lia.
From Stdlib Require Import DecimalString DecimalNat DecimalFacts.
From stdpp Require Import base option list gmap sets strings sorting.

Set Warnings "-clear-no-such-hyp".

Local Open Scope string_scope.
Local Open Scope list_scope.
Local Open Scope nat_scope.

(** ** JavaScript values, exceptions and outcomes *)

(** The values the constructor's [algorithms] argument can take. *)
#[warnings="-register-all"]
Inductive jsval : Type :=
  | JSUndefined
  | JSNull
  | JSBool (b : bool)
  | JSNum (n : Z)
  | JSStr (s : string)
  | JSArr (elems : list jsval)
  | JSObj.

(** Thrown values: [new Error(msg)] and the engine's [TypeError]. *)
Inductive exn : Type :=
  | Error (msg : string)
  | TypeError.

(** The result of running a piece of code with a bound on the depth of
    its recursion: it returns, it throws, or the bound was too small. *)
Inductive outcome (A : Type) : Type :=
  | Ok (a : A)
  | Throw (e : exn)
  | OutOfFuel.
Arguments Ok {A} a.
Arguments Throw {A} e.
Arguments OutOfFuel {A}.

(** Sequencing: a throw or an exhausted bound ends the computation. *)
Definition obind {A B} (k : A -> outcome B) (m : outcome A) : outcome B :=
  match m with
  | Ok a => k a
  | Throw e => Throw e
  | OutOfFuel => OutOfFuel
  end.

#[global] Instance outcome_ret : MRet outcome := @Ok.
#[global] Instance outcome_bind : MBind outcome := @obind.

(** Reading a property off a possibly [undefined] object: [TypeError]
    when the object is not there. *)
Definition deref {A} (o : option A) : outcome A :=
  match o with
  | Some a => Ok a
  | None => Throw TypeError
  end.

(** ** The chunk graph *)

(** Chunk objects refer to each other (the graph may be cyclic), so they
    live in a store and [chunks] holds references. *)
Abbreviation ref := nat (only parsing).

Record Chunk : Type := mkChunk {
  id : nat;
  files : list string;
  chunks : list ref;
  entry : bool
}.

Module Placeholder.

(** [String(id)] for a numeric chunk id. *)
Definition string_of_id (i : nat) : string :=
  NilZero.string_of_uint (Nat.to_uint i).

(** [makePlaceholder], lines 5-7. *)
Definition makePlaceholder (i : nat) : string :=
  "*-*-*-CHUNK-SRI-HASH-" +:+ string_of_id i +:+ "-*-*-*".

End Placeholder.
Import Placeholder.

Module DepChunks.

Section WithStore.
Variable store : gmap ref Chunk.

(** [Array.prototype.includes] on the id accumulator. *)
Definition includes (i : nat) (l : list nat) : bool :=
  bool_decide (i ∈ l).

(** [findDepChunks], lines 9-16.  The array [allDepChunkIds] is mutated
    in place by the source; here the updated array is returned.  The
    recursive call is made for every child, whether or not its id was
    already in the array. *)
Fixpoint findDepChunks (fuel : nat) (chunk : ref) (allDepChunkIds : list nat)
  : outcome (list nat) :=
  match fuel with
  | O => OutOfFuel
  | S fuel' =>
    c ← deref (store !! chunk);
    (fix forEachChunk (cs : list ref) (acc : list nat) : outcome (list nat) :=
       match cs with
       | [] => Ok acc
       | depChunk :: cs' =>
         d ← deref (store !! depChunk);
         let acc1 := if includes (id d) acc then acc else acc ++ [id d] in
         acc2 ← findDepChunks fuel' depChunk acc1;
         forEachChunk cs' acc2
       end) (chunks c) allDepChunkIds
  end.

End WithStore.

End DepChunks.
Import DepChunks.

Module LoaderCode.

(** The double quote and the line feed, as one-character texts. *)
Definition dquote : string := String (ascii_of_nat 34) EmptyString.
Definition newline : string := String (ascii_of_nat 10) EmptyString.

Section WithTemplate.

(** [this.asString] and [this.indent] of webpack's main template. *)
Variable asString : list string -> string.
Variable indent : string -> string.

Variable store : gmap ref Chunk.

(** [jsonpScriptPlugin], lines 24-29. *)
Definition jsonpScriptPlugin (source : string) : string :=
  asString [source; "script.integrity = sriHashes[chunkId];"].

(** The callback [mapChunkId], lines 46-48. *)
Definition mapChunkId (chunkId : nat) : string :=
  string_of_id chunkId +:+ ":" +:+ dquote +:+ makePlaceholder chunkId +:+ dquote.

(** [localVarsPlugin], lines 37-54. *)
Definition localVarsPlugin (fuel : nat) (source : string) (chunk : ref)
  : outcome string :=
  c ← deref (store !! chunk);
  if 0 <? length (chunks c) then
    allDepChunkIds ← findDepChunks store fuel chunk [];
    Ok (asString [source;
                  "var sriHashes = {";
                  indent (String.concat ("," +:+ newline)
                                        (map mapChunkId allDepChunkIds));
                  "};"])
  else Ok source.

End WithTemplate.

End LoaderCode.
Import LoaderCode.

Module Plugin.

(** [typeof v === 'string'] and [Array.isArray(v)]. *)
Definition typeof_string (v : jsval) : bool :=
  match v with JSStr _ => true | _ => false end.

Definition isArray (v : jsval) : bool :=
  match v with JSArr _ => true | _ => false end.

(** The constructor [SubresourceIntegrityPlugin], lines 57-67.  The
    constructed object has the single field [this.algorithms], so the
    list stored there stands for the object. *)
Definition SubresourceIntegrityPlugin (algorithms : jsval) : outcome (list jsval) :=
  match algorithms with
  | JSStr _ => Ok [algorithms]
  | JSArr elems =>
    if length elems =? 0
    then Throw (Error "Algorithms array must not be empty")
    else Ok elems
  | _ => Throw (Error "Expected an array of strings or a string")
  end.

(** What the configuration surface accepts, in the words of the spec: a
    string, or a non-empty array. *)
Definition well_formed_algorithms (v : jsval) : Prop :=
  typeof_string v = true \/ exists x l, v = JSArr (x :: l).

Definition raises {A} (o : outcome A) : Prop := exists e, o = Throw e.

End Plugin.
Import Plugin.

Module Integrity.

Section WithCrypto.

(** [crypto.createHash(algo)]: [None] when node's crypto throws because
    it does not know the algorithm; otherwise the function taking the
    text fed to [update(source, 'utf8')] to the result of
    [digest('base64')]. *)
Variable createHash : string -> option (string -> string).

(** The closure variable [algorithms] of [apply], line 71. *)
Variable algorithms : list jsval.

(** The callback [mapAlgo], lines 74-77.  [crypto.createHash] throws on
    an argument that is not a string. *)
Definition mapAlgo (source : string) (algo : jsval) : outcome string :=
  match algo with
  | JSStr name =>
    match createHash name with
    | Some digest => Ok (name +:+ "-" +:+ digest source)
    | None => Throw (Error "Digest method not supported")
    end
  | _ => Throw TypeError
  end.

(** [computeIntegrity], lines 73-78; [String.concat] is [join]. *)
Definition computeIntegrity (source : string) : outcome string :=
  parts ← mapM (mapAlgo source) algorithms;
  Ok (String.concat " " parts).

End WithCrypto.

(** The format of the spec, section 4.4: one fragment
    [<algorithm>-<base64 digest>] per algorithm, in the configured order,
    separated by single spaces. *)
Fixpoint integrity_format (fragments : list (string * string)) : string :=
  match fragments with
  | [] => ""
  | [(alg, b64)] => alg +:+ "-" +:+ b64
  | (alg, b64) :: rest => alg +:+ "-" +:+ b64 +:+ " " +:+ integrity_format rest
  end.

End Integrity.
Import Integrity.

Module Replace.

(** The part of webpack-core's [ReplaceSource] (a library the plugin
    requires at line 3) that the handler uses: [new ReplaceSource(source)],
    [replace(start, end, newValue)] and [source()], after version 0.6 of
    that library.  A replacement covers the characters [start] to [end]
    of the wrapped text, both included.  [replace] stores [newValue] as
    it is given, so it may be [undefined], and [source()] sorts the
    replacements, cuts the wrapped text from its end towards its start
    and joins the pieces. *)
Record replacement : Type := mkReplacement {
  r_start : nat;
  r_end : nat;
  r_value : option string
}.

Record ReplaceSource : Type := mkReplaceSource {
  wrapped : string;
  replacements : list replacement
}.

Definition newReplaceSource (source : string) : ReplaceSource :=
  mkReplaceSource source [].

Definition replace (rs : ReplaceSource) (start end_ : nat) (newValue : option string)
  : ReplaceSource :=
  mkReplaceSource (wrapped rs) (replacements rs ++ [mkReplacement start end_ newValue]).

(** [str.substr(position)]. *)
Fixpoint string_drop (n : nat) (s : string) : string :=
  match n, s with
  | O, _ => s
  | S n', String _ s' => string_drop n' s'
  | S _, EmptyString => EmptyString
  end.

(** [_splitString]. *)
Definition splitString (str : string) (position : nat) : string * string :=
  if position <=? 0 then ("", str)
  else (String.substring 0 position str, string_drop position str).

(** The order of [_sortReplacements]: larger [end] first and, for equal
    ends, the replacement recorded later first. *)
Definition sorts_before (a b : replacement * nat) : bool :=
  (r_end (fst b) <? r_end (fst a))
  || ((r_end (fst b) =? r_end (fst a)) && (snd b <? snd a)).

Fixpoint insert_sorted (a : replacement * nat) (l : list (replacement * nat))
  : list (replacement * nat) :=
  match l with
  | [] => [a]
  | b :: l' => if sorts_before a b then a :: l else b :: insert_sorted a l'
  end.

Definition sortReplacements (l : list replacement) : list (replacement * nat) :=
  foldr insert_sorted [] (imap (fun idx r => (r, idx)) l).

(** One round of the loop in [_replaceString].  The array [result] is
    kept with its last element first, so [pop] and [push] work at the
    head and the final [reverse] is the list as it stands. *)
Definition replaceStep (result : list (option string)) (repl : replacement * nat)
  : list (option string) :=
  match result with
  | [] => []
  | remSource :: rest =>
    let splitted1 := splitString (default "" remSource) (r_end (fst repl) + 1) in
    let splitted2 := splitString (fst splitted1) (r_start (fst repl)) in
    Some (fst splitted2) :: r_value (fst repl) :: Some (snd splitted1) :: rest
  end.

(** [Array.prototype.join('')]: [undefined] contributes nothing. *)
Definition join_pieces (pieces : list (option string)) : string :=
  String.concat "" (map (default "") pieces).

(** [source()]. *)
Definition rsSource (rs : ReplaceSource) : string :=
  join_pieces (fold_left replaceStep (sortReplacements (replacements rs))
                         [Some (wrapped rs)]).

End Replace.

Module Resolver.
Import Replace.

(** An output asset: the text [source()] returns and the [integrity]
    property, [None] while it is not set. *)
Record Asset : Type := mkAsset {
  source : string;
  integrity : option string
}.

(** JavaScript truthiness of a property that is [undefined] or a string. *)
Definition truthy (v : option string) : bool :=
  match v with
  | Some s => negb (s =? "")%string
  | None => false
  end.

(** The mutable data of one run of the [optimize-assets] handler.
    [hashByChunkId] is kept as the list of the assignments made to it,
    latest first, so an id assigned twice would occur twice;
    [visitedByChunkId] is used as a set. *)
Record state : Type := mkState {
  assets : gmap string Asset;
  hashByChunkId : list (nat * string);
  visitedByChunkId : gset nat
}.

(** [hashByChunkId[i]]: the latest assignment wins. *)
Fixpoint hashOf (log : list (nat * string)) (i : nat) : option string :=
  match log with
  | [] => None
  | (j, h) :: log' => if decide (i = j) then Some h else hashOf log' i
  end.

(** The callback [forEachChunk] of lines 114-123. *)
Definition spliceDep (oldSource : string) (log : list (nat * string))
    (newAsset : ReplaceSource) (depChunkId : nat) : ReplaceSource :=
  let magicMarker := makePlaceholder depChunkId in
  match String.index 0 magicMarker oldSource with
  | Some magicMarkerPos =>
    replace newAsset magicMarkerPos
            (magicMarkerPos + String.length magicMarker - 1)
            (hashOf log depChunkId)
  | None => newAsset
  end.

(** Lines 112-123: the wrapper with every dependency spliced in. *)
Definition spliceDeps (oldSource : string) (log : list (nat * string))
    (depChunkIds : list nat) : ReplaceSource :=
  fold_left (spliceDep oldSource log) depChunkIds (newReplaceSource oldSource).

Section WithConfig.

Variable createHash : string -> option (string -> string).
Variable algorithms : list jsval.
Variable store : gmap ref Chunk.

(** Lines 108-129, the part of [processChunkRecursive] that runs once
    the children are done. *)
Definition annotateChunk (c : Chunk) (depChunkIds : list nat) (st : state)
  : outcome state :=
  match files c with
  | [] => Ok st
  | chunkFile :: _ =>
    asset ← deref (assets st !! chunkFile);
    let oldSource := source asset in
    let newAsset := spliceDeps oldSource (hashByChunkId st) depChunkIds in
    let newSource := rsSource newAsset in
    digest ← computeIntegrity createHash algorithms newSource;
    Ok (mkState (<[chunkFile := mkAsset newSource (Some digest)]> (assets st))
                ((id c, digest) :: hashByChunkId st)
                (visitedByChunkId st))
  end.

(** The loop of lines 104-106 over [chunk.chunks], for a given way
    [recurse] of processing one child. *)
Fixpoint mapChunk (recurse : ref -> state -> outcome (list nat * state))
    (cs : list ref) (depChunkIds : list nat) (st : state)
  : outcome (list nat * state) :=
  match cs with
  | [] => Ok (depChunkIds, st)
  | depChunk :: cs' =>
    '(ids, st') ← recurse depChunk st;
    mapChunk recurse cs' (depChunkIds ++ ids) st'
  end.

(** [processChunkRecursive], lines 96-131. *)
Fixpoint processChunkRecursive (fuel : nat) (chunk : ref) (st : state)
  : outcome (list nat * state) :=
  match fuel with
  | O => OutOfFuel
  | S fuel' =>
    c ← deref (store !! chunk);
    if bool_decide (id c ∈ visitedByChunkId st) then Ok ([], st)
    else
      let st1 := mkState (assets st) (hashByChunkId st)
                         ({[id c]} ∪ visitedByChunkId st) in
      '(depChunkIds, st2) ← mapChunk (processChunkRecursive fuel') (chunks c) [] st1;
      st3 ← annotateChunk c depChunkIds st2;
      Ok (id c :: depChunkIds, st3)
  end.

(** Lines 133-138: one traversal per root chunk.  [entry c] is the root
    test of line 135 ([hasRuntime()] where it exists, else [entry]). *)
Fixpoint forEachRoot (fuel : nat) (compilationChunks : list ref) (st : state)
  : outcome state :=
  match compilationChunks with
  | [] => Ok st
  | chunk :: rest =>
    c ← deref (store !! chunk);
    if entry c then
      '(_, st') ← processChunkRecursive fuel chunk st;
      forEachRoot fuel rest st'
    else forEachRoot fuel rest st
  end.

(** The body of the [for ... in] loop, lines 142-146. *)
Definition sweepAsset (asset : Asset) : outcome Asset :=
  if truthy (integrity asset) then Ok asset
  else
    digest ← computeIntegrity createHash algorithms (source asset);
    Ok (mkAsset (source asset) (Some digest)).

(** Lines 140-147.  The source sets the property on each asset object in
    place; here the annotated assets are collected under their keys. *)
Definition sweep (m : gmap string Asset) : outcome (gmap string Asset) :=
  map_fold (fun key asset acc =>
              swept ← acc;
              asset' ← sweepAsset asset;
              Ok (<[key := asset']> swept))
           (Ok ∅) m.

Definition initial (m : gmap string Asset) : state := mkState m [] ∅.

(** [optimizeAssetsPlugin], lines 93-150; the value passed on is the
    asset map as it stands when [callback()] is called. *)
Definition optimizeAssetsPlugin (fuel : nat) (compilationChunks : list ref)
    (m : gmap string Asset) : outcome (gmap string Asset) :=
  st ← forEachRoot fuel compilationChunks (initial m);
  sweep (assets st).

End WithConfig.

End Resolver.

Import Replace Resolver.

Module Tags.

(** A tag handed over by html-webpack-plugin: its name and its attribute
    object. *)
Record Tag : Type := mkTag {
  tagName : string;
  attributes : gmap string string
}.

(** [a || b] on properties that are [undefined] or strings. *)
Definition js_or (a b : option string) : option string :=
  if truthy a then a else b.

(** The character class [[a-zA-Z0-9]]. *)
Definition is_alnum (c : ascii) : bool :=
  let n := nat_of_ascii c in
  ((48 <=? n) && (n <=? 57)) || ((65 <=? n) && (n <=? 90))
  || ((97 <=? n) && (n <=? 122)).

Fixpoint all_alnum (s : string) : bool :=
  match s with
  | EmptyString => true
  | String c s' => is_alnum c && all_alnum s'
  end.

(** The regular expression [/\?[a-zA-Z0-9]+$/] matched at the first
    character of [s]: a question mark, then one or more letters or
    digits, then the end of the text. *)
Definition query_matches (s : string) : bool :=
  match s with
  | String c rest => Ascii.eqb c "?" && negb (rest =? "")%string && all_alnum rest
  | EmptyString => false
  end.

(** [src.replace(/\?[a-zA-Z0-9]+$/, '')]: the leftmost match, if there
    is one, is cut off. *)
Fixpoint strip_query (s : string) : string :=
  if query_matches s then ""
  else match s with
       | EmptyString => ""
       | String c rest => String c (strip_query rest)
       end.

(** [getTagSrc], lines 152-156. *)
Definition getTagSrc (tag : Tag) : option string :=
  let src := js_or (attributes tag !! "href") (attributes tag !! "src") in
  if truthy src then strip_query <$> src else src.

(** [filterTag], lines 158-161. *)
Definition filterTag (tag : Tag) : bool :=
  ((tagName tag =? "script")%string || (tagName tag =? "link")%string)
  && truthy (getTagSrc tag).

Section WithCompiler.

(** node's [path.relative], [path.resolve] (with three arguments) and
    [path.dirname]. *)
Variable path_relative : string -> string -> string.
Variable path_resolve : string -> string -> string -> string.
Variable path_dirname : string -> string.

(** [compiler.options.output.path], [compiler.options.output.publicPath]
    and [pluginArgs.plugin.options.filename]. *)
Variable outputPath : string.
Variable publicPath : option string.
Variable filename : string.

(** [compilation.assets]. *)
Variable compilationAssets : gmap string Asset.

(** [getIntegrityChecksumForAsset], lines 163-166. *)
Definition getIntegrityChecksumForAsset (src : string) : option string :=
  asset ← compilationAssets !! src; integrity asset.

(** The asset key computed at lines 175-179. *)
Definition assetKey (tagSrc : string) : string :=
  let htmlOutputDir := path_dirname filename in
  path_relative outputPath
    (path_resolve outputPath htmlOutputDir
       (path_relative (default "" (js_or publicPath (Some ""))) tagSrc)).

Definition unprotected (src : string) : exn :=
  Error ("webpack-subresource-integrity: cannot determine hash for asset '"
         +:+ src +:+ "', the resource will be unprotected.").

(** [processTag], lines 174-190: the tag and [compilation.warnings]
    after the call.  [path.relative] throws on an argument that is not a
    string. *)
Definition processTag (tag : Tag) (warnings : list exn) : outcome (Tag * list exn) :=
  tagSrc ← deref (getTagSrc tag);
  let src := assetKey tagSrc in
  match getIntegrityChecksumForAsset src with
  | Some checksum =>
    if truthy (Some checksum)
    then Ok (mkTag (tagName tag)
                   (<["crossorigin" := "anonymous"]>
                      (<["integrity" := checksum]> (attributes tag))),
             warnings)
    else Ok (tag, warnings ++ [unprotected src])
  | None => Ok (tag, warnings ++ [unprotected src])
  end.

(** [tags.filter(filterTag).forEach(processTag)]: the tags are changed
    in place, so the array keeps the tags that are filtered out. *)
Fixpoint processTags (tags : list Tag) (warnings : list exn)
  : outcome (list Tag * list exn) :=
  match tags with
  | [] => Ok ([], warnings)
  | tag :: rest =>
    '(tag', warnings') ← (if filterTag tag then processTag tag warnings
                          else Ok (tag, warnings));
    '(rest', warnings'') ← processTags rest warnings';
    Ok (tag' :: rest', warnings'')
  end.

(** [supportHtmlWebpack], lines 168-195. *)
Definition supportHtmlWebpack (head body : list Tag) (warnings : list exn)
  : outcome (list Tag * list Tag * list exn) :=
  '(head', warnings') ← processTags head warnings;
  '(body', warnings'') ← processTags body warnings';
  Ok (head', body', warnings'').

End WithCompiler.

(** The reading of the spec, section 4.6: whatever follows the first
    question mark is the query component and is dropped. *)
Fixpoint strip_any_query (s : string) : string :=
  match s with
  | EmptyString => ""
  | String c rest => if Ascii.eqb c "?" then "" else String c (strip_any_query rest)
  end.

End Tags.
Import Tags.

(** ** Notions used in the statements *)

(** [post st ids st']: going from [st] to [st'] visited exactly the ids
    [ids], all of them new, kept the set of asset keys, and recorded
    digests only for ids among [ids], none of them twice. *)
Definition post (st : state) (ids : list nat) (st' : state) : Prop :=
  visitedByChunkId st' = list_to_set ids ∪ visitedByChunkId st /\
  NoDup ids /\
  (forall i, i ∈ ids -> i ∉ visitedByChunkId st) /\
  dom (assets st') = dom (assets st) /\
  exists new, hashByChunkId st' = new ++ hashByChunkId st /\
              NoDup new.*1 /\ (forall i, i ∈ new.*1 -> i ∈ ids).

(** The digests recorded so far are for distinct ids, all visited. *)
Definition log_inv (st : state) : Prop :=
  NoDup (hashByChunkId st).*1 /\
  forall i, i ∈ (hashByChunkId st).*1 -> i ∈ visitedByChunkId st.

(** Distinct chunk objects carry distinct ids. *)
Definition unique_ids (store : gmap ref Chunk) : Prop :=
  forall r1 r2 c1 c2,
    store !! r1 = Some c1 -> store !! r2 = Some c2 -> id c1 = id c2 -> r1 = r2.

(** [reach r r']: [r'] is [r] or one of its descendants. *)
Inductive reach (store : gmap ref Chunk) : ref -> ref -> Prop :=
  | reach_here r : reach store r r
  | reach_child r c child r' :
      store !! r = Some c -> child ∈ chunks c -> reach store child r' -> reach store r r'.

(** [on_cycle r]: some child of [r] leads back to [r]. *)
Definition on_cycle (store : gmap ref Chunk) (r : ref) : Prop :=
  exists c child, store !! r = Some c /\ child ∈ chunks c /\ reach store child r.

(** An algorithm entry that [crypto.createHash] accepts: a string that
    names a known algorithm. *)
Definition known (createHash : string -> option (string -> string)) (v : jsval)
  : Prop :=
  exists name digest, v = JSStr name /\ createHash name = Some digest.

(** The [integrity] of an asset, where it has one, is the integrity
    string of the text of the asset. *)
Definition asset_consistent (createHash : string -> option (string -> string))
    (algorithms : list jsval) (asset : Asset) : Prop :=
  forall h, integrity asset = Some h ->
            computeIntegrity createHash algorithms (source asset) = Ok h.

(** [key] is the first file of some chunk of the store. *)
Definition first_file (store : gmap ref Chunk) (key : string) : Prop :=
  exists r c rest, store !! r = Some c /\ files c = key :: rest.

(** Every id with a recorded digest is the id of a chunk whose first
    file is a key of the asset map. *)
Definition hashed_have_assets (store : gmap ref Chunk) (st : state) : Prop :=
  forall i, i ∈ (hashByChunkId st).*1 ->
    exists r c f rest,
      store !! r = Some c /\ id c = i /\ files c = f :: rest /\
      f ∈ dom (assets st).

(** The decimal digits, and the texts made of them. *)
Definition is_digit (c : ascii) : bool :=
  let n := nat_of_ascii c in (48 <=? n) && (n <=? 57).

Fixpoint all_digits (s : string) : bool :=
  match s with
  | EmptyString => true
  | String c s' => is_digit c && all_digits s'
  end.

(** [descends chunk r]: [r] is a child of [chunk] or is below one. *)
Definition descends (store : gmap ref Chunk) (chunk r : ref) : Prop :=
  exists c child, store !! chunk = Some c /\ child ∈ chunks c /\ reach store child r.

(** [ranked store rank]: every child named in the store is in the store
    and has a smaller rank than its parent, so the graph has no cycle
    and no reference that leads nowhere. *)
Definition ranked (store : gmap ref Chunk) (rank : ref -> nat) : Prop :=
  forall r c child,
    store !! r = Some c -> child ∈ chunks c ->
    is_Some (store !! child) /\ rank child < rank r.

(** The chunk with id [i] is done with: its children are visited and,
    if it has a file, its digest is recorded. *)
Definition settled (store : gmap ref Chunk) (st : state) (i : nat) : Prop :=
  forall r c, store !! r = Some c -> id c = i ->
    (forall child, child ∈ chunks c ->
       exists cc, store !! child = Some cc /\ id cc ∈ visitedByChunkId st) /\
    (files c <> [] -> i ∈ (hashByChunkId st).*1).

Definition visits (store : gmap ref Chunk)
    (recurse : ref -> state -> outcome (list nat * state)) : Prop :=
  forall chunk st ids st',
    recurse chunk st = Ok (ids, st') ->
    post st ids st' /\
    (forall i, i ∈ ids -> settled store st' i) /\
    exists c, store !! chunk = Some c /\ id c ∈ visitedByChunkId st'.

Definition store_ids (store : gmap ref Chunk) : gset nat :=
  list_to_set ((fun rc => id rc.2) <$> map_to_list store).

(** The number of ids in the store that are not visited yet. *)
Definition unvisited (store : gmap ref Chunk) (st : state) : nat :=
  size (store_ids store ∖ visitedByChunkId st).

(** What [sweep] returns, key by key. *)
Definition swept (createHash : string -> option (string -> string))
    (algorithms : list jsval) (m : gmap string Asset) (r : outcome (gmap string Asset)) : Prop :=
  r <> OutOfFuel /\
  forall m', r = Ok m' ->
    forall key,
      match m !! key with
      | Some asset =>
        exists asset', sweepAsset createHash algorithms asset = Ok asset' /\
                       m' !! key = Some asset'
      | None => m' !! key = None
      end.

Definition absent_from (text : string) (d : nat) : Prop :=
  String.index 0 (makePlaceholder d) text = None.


Definition ok_or {A} (d : A) (o : outcome A) : A :=
  match o with Ok a => a | _ => d end.


(** [a] ends after [b]. *)
Definition ends_after (a b : replacement) : Prop := r_end b < r_end a.





(** ** Concrete inputs *)

(** Two chunks that load each other. *)
Definition cyclic_store : gmap ref Chunk :=
  {[ 0 := mkChunk 0 ["a.js"] [1] true;
     1 := mkChunk 1 ["b.js"] [0] false ]}.

(** A diamond: 0 loads 1 and 2, both of which load 3. *)
Definition diamond_store : gmap ref Chunk :=
  {[ 0 := mkChunk 0 ["a.js"] [1; 2] true;
     1 := mkChunk 1 ["b.js"] [3] false;
     2 := mkChunk 2 ["c.js"] [3] false;
     3 := mkChunk 3 ["d.js"] [] false ]}.

(** A rank for [diamond_store]: the distance to the leaf. *)
Definition diamond_rank (r : ref) : nat :=
  match r with
  | 0 => 2
  | 1 => 1
  | 2 => 1
  | _ => 0
  end.

(** A stand-in for node's crypto, used to run the model on concrete
    inputs: every algorithm name whose first letters are [sha] is known,
    and the digest of a text shows the text. *)
Definition demoCreateHash (algo : string) : option (string -> string) :=
  if String.prefix "sha" algo then Some (fun s => "H(" +:+ s +:+ ")") else None.

(** A chunk with one file and the state in which only its asset exists. *)
Definition lone_chunk : Chunk := mkChunk 0 ["main.js"] [] true.

Definition lone_state (text : string) : state :=
  mkState {[ "main.js" := mkAsset text None ]} [(7, "sha256-H(seven)")] ∅.




(** A store with one root chunk that has one file. *)
Definition lone_store : gmap ref Chunk := {[ 0 := lone_chunk ]}.

(** A parent with one child, and their files. *)
Definition chain_store : gmap ref Chunk :=
  {[ 0 := mkChunk 0 ["p.js"] [1] true;
     1 := mkChunk 1 ["q.js"] [] false ]}.

Definition chain_assets : gmap string Asset :=
  {[ "p.js" := mkAsset "x=*-*-*-CHUNK-SRI-HASH-1-*-*-*;" None;
     "q.js" := mkAsset "Q" None ]}.

(** The diamond of [diamond_store] with one file per chunk, each parent
    holding placeholders for its descendants, and one asset that belongs
    to no chunk. *)
Definition diamond_assets : gmap string Asset :=
  {[ "a.js" := mkAsset "A 1:*-*-*-CHUNK-SRI-HASH-1-*-*-* 2:*-*-*-CHUNK-SRI-HASH-2-*-*-* 3:*-*-*-CHUNK-SRI-HASH-3-*-*-*;" None;
     "b.js" := mkAsset "B 3:*-*-*-CHUNK-SRI-HASH-3-*-*-*;" None;
     "c.js" := mkAsset "C 3:*-*-*-CHUNK-SRI-HASH-3-*-*-*;" None;
     "d.js" := mkAsset "D" None;
     "logo.svg" := mkAsset "<svg/>" None ]}.

Definition diamond_resolved : state :=
  ok_or (initial ∅)
        (forEachRoot demoCreateHash [JSStr "sha256"] diamond_store 5 [0; 1; 2; 3]
                     (initial diamond_assets)).

Definition diamond_final : gmap string Asset :=
  ok_or ∅ (optimizeAssetsPlugin demoCreateHash [JSStr "sha256"] diamond_store 5
                                [0; 1; 2; 3] diamond_assets).

(** Two roots that load the same chunk: the root processed second keeps
    the placeholder of the shared chunk. *)
Definition two_roots_store : gmap ref Chunk :=
  {[ 0 := mkChunk 0 ["one.js"] [2] true;
     1 := mkChunk 1 ["two.js"] [2] true;
     2 := mkChunk 2 ["shared.js"] [] false ]}.

Definition two_roots_assets : gmap string Asset :=
  {[ "one.js" := mkAsset "var sriHashes = {2:'*-*-*-CHUNK-SRI-HASH-2-*-*-*'};" None;
     "two.js" := mkAsset "var sriHashes = {2:'*-*-*-CHUNK-SRI-HASH-2-*-*-*'};" None;
     "shared.js" := mkAsset "S" None ]}.

(** Stand-ins for the template helpers: [asString] joins lines and
    [indent] puts a tab in front of a text of one line. *)
Definition demo_asString (parts : list string) : string :=
  String.concat newline parts.

Definition demo_indent (s : string) : string :=
  String (ascii_of_nat 9) EmptyString +:+ s.

(** The two roots again, with the files of the roots as the loader-code
    hook writes them. *)
Definition emitted_local_vars (root : ref) : string :=
  ok_or "" (localVarsPlugin demo_asString demo_indent two_roots_store 3
                            "// runtime" root).

Definition emitted_assets : gmap string Asset :=
  {[ "one.js" := mkAsset (emitted_local_vars 0) None;
     "two.js" := mkAsset (emitted_local_vars 1) None;
     "shared.js" := mkAsset "S" None ]}.

Definition script_tag (src : string) : Tag := mkTag "script" {[ "src" := src ]}.

(** Stand-ins for node's [path] functions, right on the inputs they are
    used with below: an absolute output directory, an html file at its
    top level, and references that are plain file names. *)
Definition demo_relative (from to : string) : string :=
  if (from =? "")%string then to
  else if String.prefix (from +:+ "/") to
       then string_drop (String.length from + 1) to
       else to.

Definition demo_resolve (a b c : string) : string := a +:+ "/" +:+ c.

Definition demo_dirname (_ : string) : string := ".".

Definition demo_processTag (compilationAssets : gmap string Asset) :=
  processTag demo_relative demo_resolve demo_dirname "/out" None "index.html"
             compilationAssets.

Definition demo_supportHtmlWebpack (compilationAssets : gmap string Asset) :=
  supportHtmlWebpack demo_relative demo_resolve demo_dirname "/out" None "index.html"
                     compilationAssets.

Definition app_assets : gmap string Asset :=
  {[ "app.js" := mkAsset "console.log(1)" (Some "sha256-AAAA") ]}.

(** ** Proof automation *)

Ltac outcome_simpl :=
  unfold mret, outcome_ret, mbind, outcome_bind in *; cbn [obind deref] in *.

(** ** Placeholders and the collection of dependent ids *)

Example makePlaceholder_12 :
  makePlaceholder 12 = "*-*-*-CHUNK-SRI-HASH-12-*-*-*".
Proof. reflexivity. Qed.

Example findDepChunks_diamond :
  findDepChunks diamond_store 3 0 [] = Ok [1; 3; 2].
Proof. vm_compute. reflexivity. Qed.

Lemma cyclic_store_0 : cyclic_store !! 0 = Some (mkChunk 0 ["a.js"] [1] true).
Proof. reflexivity. Qed.

Lemma cyclic_store_1 : cyclic_store !! 1 = Some (mkChunk 1 ["b.js"] [0] false).
Proof. reflexivity. Qed.

Lemma findDepChunks_cyclic_any (fuel : nat) :
  forall acc,
    findDepChunks cyclic_store fuel 0 acc = OutOfFuel /\
    findDepChunks cyclic_store fuel 1 acc = OutOfFuel.
Proof.
  induction fuel as [|fuel IH]; intros acc; [split; reflexivity|].
  split; cbn [findDepChunks];
    rewrite ?cyclic_store_0, ?cyclic_store_1; cbn;
    rewrite ?cyclic_store_0, ?cyclic_store_1; cbn.
  - destruct (IH (if includes 1 acc then acc else acc ++ [1])) as [_ ->].
    reflexivity.
  - destruct (IH (if includes 0 acc then acc else acc ++ [0])) as [-> _].
    reflexivity.
Qed.

(** ** The constructor *)

Lemma constructor_string (s : string) :
  SubresourceIntegrityPlugin (JSStr s) = Ok [JSStr s].
Proof. reflexivity. Qed.

Lemma constructor_array (x : jsval) (l : list jsval) :
  SubresourceIntegrityPlugin (JSArr (x :: l)) = Ok (x :: l).
Proof. reflexivity. Qed.

Lemma constructor_empty_array :
  SubresourceIntegrityPlugin (JSArr []) =
  Throw (Error "Algorithms array must not be empty").
Proof. reflexivity. Qed.

Lemma constructor_other (v : jsval) :
  typeof_string v = false -> isArray v = false ->
  SubresourceIntegrityPlugin v =
  Throw (Error "Expected an array of strings or a string").
Proof. destruct v; simpl; congruence. Qed.

(** C7: the constructor throws exactly when its argument is neither a
    string nor a non-empty array; a string is stored as a one-element
    list, a non-empty array is stored as it is, and the empty array and
    every value that is neither string nor array are rejected with an
    error. *)
Theorem constructor_raises_iff_malformed (v : jsval) :
  (raises (SubresourceIntegrityPlugin v) <-> ~ well_formed_algorithms v) /\
  (forall s, v = JSStr s -> SubresourceIntegrityPlugin v = Ok [JSStr s]) /\
  (forall x l, v = JSArr (x :: l) -> SubresourceIntegrityPlugin v = Ok (x :: l)) /\
  (v = JSArr [] -> raises (SubresourceIntegrityPlugin v)) /\
  (typeof_string v = false -> isArray v = false ->
   raises (SubresourceIntegrityPlugin v)).
Proof.
  repeat split.
  - intros [e He] [Hs | (x & l & ->)].
    + destruct v; simpl in *; congruence.
    + discriminate He.
  - intros Hn. destruct v as [| | | | s | [|x l] |]; try (eexists; reflexivity).
    + exfalso. apply Hn. left. reflexivity.
    + exfalso. apply Hn. right. eauto.
  - intros s ->. reflexivity.
  - intros x l ->. reflexivity.
  - intros ->. eexists. reflexivity.
  - intros Hs Ha. eexists. apply constructor_other; assumption.
Qed.

(** C10: the elements of a non-empty array are not inspected: whatever
    they are, construction returns and stores the array as given. *)
Theorem constructor_keeps_array_elements (x : jsval) (l : list jsval) :
  SubresourceIntegrityPlugin (JSArr (x :: l)) = Ok (x :: l) /\
  ~ raises (SubresourceIntegrityPlugin (JSArr (x :: l))).
Proof.
  split; [reflexivity|]. intros [e He]. discriminate He.
Qed.

Example constructor_number_and_null :
  SubresourceIntegrityPlugin (JSArr [JSNum 42; JSNull]) = Ok [JSNum 42; JSNull].
Proof. reflexivity. Qed.

(** ** Facts about strings *)

Lemma string_app_cons (x : ascii) (a b : string) :
  String x a +:+ b = String x (a +:+ b).
Proof. reflexivity. Qed.

Lemma string_app_nil_l (a : string) : "" +:+ a = a.
Proof. reflexivity. Qed.

Lemma string_app_assoc (a b c : string) : (a +:+ b) +:+ c = a +:+ (b +:+ c).
Proof.
  induction a as [|x a IH]; [reflexivity|].
  rewrite !string_app_cons. f_equal. exact IH.
Qed.


Lemma string_length_app (a b : string) :
  String.length (a +:+ b) = String.length a + String.length b.
Proof.
  induction a as [|x a IH]; [reflexivity|].
  rewrite string_app_cons. cbn [String.length]. rewrite IH. reflexivity.
Qed.

(** ** The integrity string *)

Lemma integrity_format_join (fragments : list (string * string)) :
  integrity_format fragments =
  String.concat " " (map (fun f => fst f +:+ "-" +:+ snd f) fragments).
Proof.
  induction fragments as [|[a b] [|f rest] IH]; [reflexivity..|].
  change (integrity_format ((a, b) :: f :: rest))
    with (a +:+ "-" +:+ b +:+ " " +:+ integrity_format (f :: rest)).
  rewrite IH. cbn [map String.concat fst snd].
  rewrite !string_app_assoc. reflexivity.
Qed.

Lemma mapM_mapAlgo createHash (source : string) (algos : list string)
    (digests : list (string -> string)) :
  Forall2 (fun a d => createHash a = Some d) algos digests ->
  mapM (mapAlgo createHash source) (JSStr <$> algos) =
  Ok (zip_with (fun a d => a +:+ "-" +:+ d source) algos digests).
Proof.
  induction 1 as [|a d algos digests Ha _ IH]; [reflexivity|].
  cbn [fmap list_fmap mapM mapAlgo zip_with]. cbn [mapAlgo]. rewrite Ha.
  cbn. cbn in IH. rewrite IH. reflexivity.
Qed.

Lemma computeIntegrity_fragments createHash (algos : list string)
    (digests : list (string -> string)) (source : string) :
  Forall2 (fun a d => createHash a = Some d) algos digests ->
  computeIntegrity createHash (JSStr <$> algos) source =
  Ok (integrity_format (zip_with (fun a d => (a, d source)) algos digests)).
Proof.
  intros H. unfold computeIntegrity. rewrite (mapM_mapAlgo _ _ _ _ H). cbn.
  f_equal. rewrite integrity_format_join. f_equal.
  clear H. revert digests.
  induction algos as [|a algos IH]; intros [|d digests]; cbn; try reflexivity.
  f_equal. apply IH.
Qed.

Corollary computeIntegrity_two createHash (a1 a2 : string)
    (d1 d2 : string -> string) (source : string) :
  createHash a1 = Some d1 -> createHash a2 = Some d2 ->
  computeIntegrity createHash [JSStr a1; JSStr a2] source =
  Ok (a1 +:+ "-" +:+ d1 source +:+ " " +:+ a2 +:+ "-" +:+ d2 source).
Proof.
  intros H1 H2.
  apply (computeIntegrity_fragments createHash [a1; a2] [d1; d2] source).
  repeat constructor; assumption.
Qed.

(** C5: when node's crypto knows every configured algorithm, the
    integrity string of a text is the list of fragments
    [<algorithm>-<base64 digest of that text>], one per algorithm in the
    configured order, separated by single spaces; for two algorithms it
    reads [a1-<digest1> a2-<digest2>]. *)
Theorem computeIntegrity_format createHash (algos : list string)
    (digests : list (string -> string)) (source : string) :
  Forall2 (fun a d => createHash a = Some d) algos digests ->
  computeIntegrity createHash (JSStr <$> algos) source =
    Ok (integrity_format (zip_with (fun a d => (a, d source)) algos digests)) /\
  forall a1 a2 d1 d2,
    algos = [a1; a2] -> digests = [d1; d2] ->
    computeIntegrity createHash (JSStr <$> algos) source =
    Ok (a1 +:+ "-" +:+ d1 source +:+ " " +:+ a2 +:+ "-" +:+ d2 source).
Proof.
  intros H. split; [exact (computeIntegrity_fragments _ _ _ _ H)|].
  intros a1 a2 d1 d2 -> ->.
  apply Forall2_cons_1 in H as [H1 H]. apply Forall2_cons_1 in H as [H2 _].
  exact (computeIntegrity_two _ _ _ _ _ _ H1 H2).
Qed.

Lemma computeIntegrity_format_witness :
  computeIntegrity demoCreateHash (JSStr <$> ["sha256"; "sha384"]) "abc" =
  Ok "sha256-H(abc) sha384-H(abc)".
Proof.
  refine (proj1 (computeIntegrity_format demoCreateHash ["sha256"; "sha384"]
                   [fun s => "H(" +:+ s +:+ ")"; fun s => "H(" +:+ s +:+ ")"] "abc"
                   _)).
  repeat constructor.
Defined.

(** ** Splicing digests into an asset *)

Lemma substring_0_app (a b : string) :
  String.substring 0 (String.length a) (a +:+ b) = a.
Proof.
  induction a as [|x a IH]; [destruct b; reflexivity|].
  rewrite string_app_cons. cbn [String.length String.substring].
  f_equal. exact IH.
Qed.

Lemma string_drop_app (a b : string) :
  string_drop (String.length a) (a +:+ b) = b.
Proof.
  induction a as [|x a IH]; [reflexivity|].
  rewrite string_app_cons. cbn [String.length string_drop]. exact IH.
Qed.

Lemma substring_0_substring_0 (n m : nat) (s : string) :
  n <= m ->
  String.substring 0 n (String.substring 0 m s) = String.substring 0 n s.
Proof.
  revert m s. induction n as [|n IH]; intros m s Hnm.
  - destruct (String.substring 0 m s), s; reflexivity.
  - destruct m as [|m]; [lia|]. destruct s as [|x s]; [reflexivity|].
    cbn [String.substring]. f_equal. apply IH. lia.
Qed.

Lemma makePlaceholder_length (i : nat) :
  String.length (makePlaceholder i) = 27 + String.length (string_of_id i).
Proof.
  unfold makePlaceholder. rewrite !string_length_app. cbn [String.length]. lia.
Qed.

Lemma makePlaceholder_nonempty (i : nat) : makePlaceholder i <> "".
Proof.
  intros H. apply (f_equal String.length) in H.
  rewrite makePlaceholder_length in H. discriminate H.
Qed.

Lemma rsSource_untouched (s : string) : rsSource (newReplaceSource s) = s.
Proof. reflexivity. Qed.

Lemma splitString_fst (s : string) (n : nat) :
  fst (splitString s n) = String.substring 0 n s.
Proof.
  unfold splitString. destruct (Nat.leb_spec n 0) as [H|H]; [|reflexivity].
  assert (n = 0) as -> by lia. destruct s; reflexivity.
Qed.

Lemma splitString_snd (s : string) (n : nat) :
  snd (splitString s n) = string_drop n s.
Proof.
  unfold splitString. destruct (Nat.leb_spec n 0) as [H|H]; [|reflexivity].
  assert (n = 0) as -> by lia. reflexivity.
Qed.

Lemma join_pieces_three (a c : string) (v : option string) :
  join_pieces [Some a; v; Some c] = a +:+ default "" v +:+ c.
Proof. reflexivity. Qed.

(** [source()] with a single replacement recorded. *)
Lemma rsSource_single (s : string) (p e : nat) (v : option string) :
  p <= e + 1 ->
  rsSource (replace (newReplaceSource s) p e v) =
  String.substring 0 p s +:+ default "" v +:+ string_drop (e + 1) s.
Proof.
  intros Hpe.
  change (rsSource (replace (newReplaceSource s) p e v))
    with (join_pieces
            [Some (fst (splitString (fst (splitString s (e + 1))) p)); v;
             Some (snd (splitString s (e + 1)))]).
  rewrite join_pieces_three, !splitString_fst, splitString_snd.
  rewrite substring_0_substring_0 by exact Hpe. reflexivity.
Qed.

Lemma spliceDep_absent (oldSource : string) (log : list (nat * string))
    (newAsset : ReplaceSource) (d : nat) :
  String.index 0 (makePlaceholder d) oldSource = None ->
  spliceDep oldSource log newAsset d = newAsset.
Proof. intros H. unfold spliceDep. rewrite H. reflexivity. Qed.

Lemma spliceDep_present (oldSource : string) (log : list (nat * string))
    (newAsset : ReplaceSource) (d p : nat) :
  String.index 0 (makePlaceholder d) oldSource = Some p ->
  spliceDep oldSource log newAsset d =
  replace newAsset p (p + String.length (makePlaceholder d) - 1) (hashOf log d).
Proof. intros H. unfold spliceDep. rewrite H. reflexivity. Qed.

Lemma spliceDeps_skip (oldSource : string) (log : list (nat * string))
    (l1 l2 : list nat) (d : nat) :
  String.index 0 (makePlaceholder d) oldSource = None ->
  spliceDeps oldSource log (l1 ++ d :: l2) = spliceDeps oldSource log (l1 ++ l2).
Proof.
  intros H. unfold spliceDeps. rewrite !fold_left_app. cbn [fold_left].
  rewrite (spliceDep_absent _ _ _ _ H). reflexivity.
Qed.

Lemma spliceDeps_all_absent (oldSource : string) (log : list (nat * string))
    (deps : list nat) :
  Forall (fun d => String.index 0 (makePlaceholder d) oldSource = None) deps ->
  spliceDeps oldSource log deps = newReplaceSource oldSource.
Proof.
  unfold spliceDeps. generalize (newReplaceSource oldSource).
  induction 1 as [|d deps Hd _ IH]; [reflexivity|].
  cbn [fold_left]. rewrite (spliceDep_absent _ _ _ _ Hd). exact IH.
Qed.

(** The text of an asset after splicing, when [d] is the one dependency
    whose placeholder occurs in it. *)
Lemma spliceDeps_one_present (oldSource : string) (log : list (nat * string))
    (l1 l2 : list nat) (d p : nat) :
  Forall (fun d' => String.index 0 (makePlaceholder d') oldSource = None) (l1 ++ l2) ->
  String.index 0 (makePlaceholder d) oldSource = Some p ->
  rsSource (spliceDeps oldSource log (l1 ++ d :: l2)) =
  String.substring 0 p oldSource +:+ default "" (hashOf log d) +:+
  string_drop (p + String.length (makePlaceholder d)) oldSource.
Proof.
  intros Habs Hp. apply Forall_app in Habs as [H1 H2].
  unfold spliceDeps. rewrite fold_left_app. cbn [fold_left].
  fold (spliceDeps oldSource log l1). rewrite (spliceDeps_all_absent _ _ _ H1).
  rewrite (spliceDep_present _ _ _ _ _ Hp).
  assert (fold_left (spliceDep oldSource log) l2
            (replace (newReplaceSource oldSource) p
               (p + String.length (makePlaceholder d) - 1) (hashOf log d)) =
          replace (newReplaceSource oldSource) p
               (p + String.length (makePlaceholder d) - 1) (hashOf log d)) as ->.
  { generalize (replace (newReplaceSource oldSource) p
               (p + String.length (makePlaceholder d) - 1) (hashOf log d)).
    induction H2 as [|d' l2 Hd' _ IH]; intros rs; [reflexivity|].
    cbn [fold_left]. rewrite (spliceDep_absent _ _ _ _ Hd'). apply IH. }
  pose proof (makePlaceholder_length d) as Hlen.
  rewrite rsSource_single by lia.
  replace (p + String.length (makePlaceholder d) - 1 + 1)
    with (p + String.length (makePlaceholder d)) by lia.
  reflexivity.
Qed.

(** C6: a dependency whose placeholder does not occur in the parent's
    text is passed over: the parent is annotated exactly as if the id
    were not in the list, whatever is or is not recorded for that id, and
    when no dependency's placeholder occurs the text stays as it was and
    the digest is the one of that text. *)
Theorem missing_placeholder_is_skipped createHash (algorithms : list jsval)
    (c : Chunk) (chunkFile : string) (rest : list string) (asset : Asset)
    (st : state) (l1 l2 : list nat) (d : nat) :
  files c = chunkFile :: rest ->
  assets st !! chunkFile = Some asset ->
  absent_from (source asset) d ->
  annotateChunk createHash algorithms c (l1 ++ d :: l2) st =
    annotateChunk createHash algorithms c (l1 ++ l2) st /\
  (Forall (absent_from (source asset)) (l1 ++ l2) ->
   forall digest,
     computeIntegrity createHash algorithms (source asset) = Ok digest ->
     annotateChunk createHash algorithms c (l1 ++ d :: l2) st =
     Ok (mkState (<[chunkFile := mkAsset (source asset) (Some digest)]> (assets st))
                 ((id c, digest) :: hashByChunkId st)
                 (visitedByChunkId st))).
Proof.
  intros Hfiles Hasset Habs.
  assert (annotateChunk createHash algorithms c (l1 ++ d :: l2) st =
          annotateChunk createHash algorithms c (l1 ++ l2) st) as Heq.
  { unfold annotateChunk. rewrite Hfiles, Hasset. cbn [deref mbind outcome_bind obind].
    rewrite (spliceDeps_skip _ _ _ _ _ Habs). reflexivity. }
  split; [exact Heq|].
  intros Hall digest Hdigest. rewrite Heq.
  unfold annotateChunk. rewrite Hfiles, Hasset. cbn [deref mbind outcome_bind obind].
  rewrite (spliceDeps_all_absent _ _ _ Hall), rsSource_untouched, Hdigest.
  reflexivity.
Qed.

Lemma missing_placeholder_is_skipped_witness :
  annotateChunk demoCreateHash [JSStr "sha256"] lone_chunk ([] ++ 7 :: [])
                (lone_state "var x = 1;") =
  Ok (mkState (<["main.js" := mkAsset "var x = 1;" (Some "sha256-H(var x = 1;)")]>
                 (assets (lone_state "var x = 1;")))
              [(0, "sha256-H(var x = 1;)"); (7, "sha256-H(seven)")] ∅).
Proof.
  refine (proj2 (missing_placeholder_is_skipped demoCreateHash [JSStr "sha256"]
                   lone_chunk "main.js" [] (mkAsset "var x = 1;" None)
                   (lone_state "var x = 1;") [] [] 7 _ _ _) _ _ _).
  - reflexivity.
  - reflexivity.
  - reflexivity.
  - constructor.
  - reflexivity.
Defined.


(** *** [source()] as a function of the sorted replacements *)




(** *** The order in which [source()] applies the replacements *)







#[local] Instance ends_after_antisymm : AntiSymm (=) ends_after.
Proof. intros a b Hab Hba. unfold ends_after in *. lia. Qed.



(** *** First occurrences that follow one another in the text *)









(** *** Text that no replacement covers *)














(** ** The traversal: what one call adds to the state *)

Lemma obind_Ok {A B} (m : outcome A) (k : A -> outcome B) (b : B) :
  m ≫= k = Ok b -> exists a, m = Ok a /\ k a = Ok b.
Proof. destruct m as [a| |]; cbn; [eauto | discriminate..]. Qed.

Lemma post_nil (st : state) : post st [] st.
Proof.
  repeat split.
  - set_solver.
  - constructor.
  - set_solver.
  - exists []. repeat split; [constructor | set_solver].
Qed.

Lemma post_app (st st1 st2 : state) (a b : list nat) :
  post st a st1 -> post st1 b st2 -> post st (a ++ b) st2.
Proof.
  intros (Hv1 & Hnd1 & Hnew1 & Hdom1 & new1 & Hlog1 & Hndl1 & Hsub1)
         (Hv2 & Hnd2 & Hnew2 & Hdom2 & new2 & Hlog2 & Hndl2 & Hsub2).
  assert (forall i, i ∈ b -> i ∉ a) as Hdisj.
  { intros i Hb Ha. apply (Hnew2 i Hb). rewrite Hv1. set_solver. }
  repeat split.
  - rewrite Hv2, Hv1, list_to_set_app_L. set_solver.
  - apply NoDup_app. repeat split; [exact Hnd1 | | exact Hnd2].
    intros i Ha Hb. exact (Hdisj i Hb Ha).
  - intros i Hi. apply elem_of_app in Hi as [Ha | Hb]; [exact (Hnew1 i Ha)|].
    intros Hvis. apply (Hnew2 i Hb). rewrite Hv1. set_solver.
  - congruence.
  - exists (new2 ++ new1). repeat split.
    + rewrite Hlog2, Hlog1, app_assoc. reflexivity.
    + rewrite fmap_app. apply NoDup_app. repeat split; [exact Hndl2 | | exact Hndl1].
      intros i H2 H1. exact (Hdisj i (Hsub2 i H2) (Hsub1 i H1)).
    + intros i Hi. rewrite fmap_app in Hi.
      apply elem_of_app in Hi as [H2 | H1]; apply elem_of_app; auto.
Qed.

Section Traversal.

Variable createHash : string -> option (string -> string).
Variable algorithms : list jsval.
Variable store : gmap ref Chunk.

#[local] Abbreviation annotateChunk := (annotateChunk createHash algorithms).
#[local] Abbreviation processChunkRecursive :=
  (processChunkRecursive createHash algorithms store).
#[local] Abbreviation forEachRoot := (forEachRoot createHash algorithms store).
#[local] Abbreviation unique_ids := (unique_ids store).
#[local] Abbreviation reach := (reach store).
#[local] Abbreviation settled := (settled store).
#[local] Abbreviation visits := (visits store).

Lemma annotateChunk_Ok (c : Chunk) (deps : list nat) (st st' : state) :
  annotateChunk c deps st = Ok st' ->
  visitedByChunkId st' = visitedByChunkId st /\
  dom (assets st') = dom (assets st) /\
  ((files c = [] /\ hashByChunkId st' = hashByChunkId st) \/
   (files c <> [] /\ exists digest,
       hashByChunkId st' = (id c, digest) :: hashByChunkId st)).
Proof.
  unfold annotateChunk. destruct (files c) as [|chunkFile rest].
  - intros [= <-]. auto.
  - intros H. apply obind_Ok in H as (asset & Hasset & H).
    apply obind_Ok in H as (digest & Hdigest & [= <-]).
    cbn [visitedByChunkId assets hashByChunkId].
    repeat split.
    + rewrite dom_insert_L. destruct (assets st !! chunkFile) as [a|] eqn:E;
        [|discriminate Hasset].
      apply elem_of_dom_2 in E. set_solver.
    + right. split; [discriminate | eauto].
Qed.

Lemma mapChunk_post (recurse : ref -> state -> outcome (list nat * state)) :
  (forall c st ids st', recurse c st = Ok (ids, st') -> post st ids st') ->
  forall cs acc st ids st',
    mapChunk recurse cs acc st = Ok (ids, st') ->
    exists ids', ids = acc ++ ids' /\ post st ids' st'.
Proof.
  intros Hrec cs. induction cs as [|depChunk cs IH]; intros acc st ids st' H.
  - injection H as <- <-. exists []. rewrite app_nil_r. split; [reflexivity | apply post_nil].
  - cbn [mapChunk] in H. apply obind_Ok in H as ([ids1 st1] & H1 & H).
    apply Hrec in H1. apply IH in H as (ids2 & -> & H2).
    exists (ids1 ++ ids2). split; [symmetry; apply app_assoc|].
    exact (post_app _ _ _ _ _ H1 H2).
Qed.

Lemma processChunkRecursive_post (fuel : nat) :
  forall chunk st ids st',
    processChunkRecursive fuel chunk st = Ok (ids, st') -> post st ids st'.
Proof.
  induction fuel as [|fuel IH]; intros chunk st ids st' H; [discriminate H|].
  cbn [Resolver.processChunkRecursive] in H.
  apply obind_Ok in H as (c & Hc & H).
  case_bool_decide as Hvis.
  - injection H as <- <-. apply post_nil.
  - apply obind_Ok in H as ([deps st2] & Hmap & H).
    apply obind_Ok in H as (st3 & Hann & H). injection H as <- <-.
    apply (mapChunk_post _ IH) in Hmap as (deps' & Hdeps & Hpost).
    cbn [app] in Hdeps. subst deps'.
    destruct Hpost as (Hv & Hnd & Hnew & Hdom & new & Hlog & Hndl & Hsub).
    cbn [visitedByChunkId assets hashByChunkId] in Hv, Hnew, Hdom, Hlog.
    apply annotateChunk_Ok in Hann as (Hv3 & Hdom3 & Hlog3).
    assert (id c ∉ deps) as Hfresh by (intros Hin; apply (Hnew _ Hin); set_solver).
    repeat split.
    + rewrite Hv3, Hv. cbn [list_to_set]. set_solver.
    + constructor; assumption.
    + intros i Hi Hvi. apply elem_of_cons in Hi as [-> | Hi]; [exact (Hvis Hvi)|].
      apply (Hnew i Hi). set_solver.
    + congruence.
    + destruct Hlog3 as [[_ Hlog3] | [_ [digest Hlog3]]].
      * exists new. repeat split; [congruence | exact Hndl | set_solver].
      * exists ((id c, digest) :: new). repeat split.
        -- rewrite Hlog3, Hlog. reflexivity.
        -- cbn [fmap list_fmap fst]. constructor; [|exact Hndl].
           intros Hin. exact (Hfresh (Hsub _ Hin)).
        -- intros i Hi. cbn [fmap list_fmap fst] in Hi.
           apply elem_of_cons in Hi as [-> | Hi]; [left | right; auto].
Qed.

Lemma post_log_inv (st st' : state) (ids : list nat) :
  post st ids st' -> log_inv st -> log_inv st'.
Proof.
  intros (Hv & Hnd & Hnew & Hdom & new & Hlog & Hndl & Hsub) [Hnd0 Hvis0].
  split.
  - rewrite Hlog, fmap_app. apply NoDup_app. repeat split; [exact Hndl | | exact Hnd0].
    intros i Hi Hi0. exact (Hnew i (Hsub i Hi) (Hvis0 i Hi0)).
  - intros i Hi. rewrite Hlog, fmap_app in Hi. rewrite Hv.
    apply elem_of_app in Hi as [Hi | Hi].
    + apply elem_of_union_l, elem_of_list_to_set. exact (Hsub i Hi).
    + apply elem_of_union_r. exact (Hvis0 i Hi).
Qed.

Lemma post_visited_mono (st st' : state) (ids : list nat) :
  post st ids st' -> visitedByChunkId st ⊆ visitedByChunkId st'.
Proof. intros (Hv & _). rewrite Hv. set_solver. Qed.

Lemma post_log_mono (st st' : state) (ids : list nat) :
  post st ids st' ->
  forall i, i ∈ (hashByChunkId st).*1 -> i ∈ (hashByChunkId st').*1.
Proof.
  intros (_ & _ & _ & _ & new & Hlog & _) i Hi.
  rewrite Hlog, fmap_app. apply elem_of_app. right. exact Hi.
Qed.

(** *** Every chunk reached is visited, and hashed if it has a file *)

Lemma settled_mono (st st' : state) (i : nat) :
  visitedByChunkId st ⊆ visitedByChunkId st' ->
  (forall j, j ∈ (hashByChunkId st).*1 -> j ∈ (hashByChunkId st').*1) ->
  settled st i -> settled st' i.
Proof.
  intros Hv Hl Hs r c Hr Hi. destruct (Hs r c Hr Hi) as [Hch Hf]. split.
  - intros child Hin. destruct (Hch child Hin) as (cc & Hcc & Hvis).
    exists cc. split; [exact Hcc | set_solver].
  - intros Hne. apply Hl, Hf, Hne.
Qed.

Lemma mapChunk_visits (recurse : ref -> state -> outcome (list nat * state)) :
  visits recurse ->
  forall cs acc st ids st',
    mapChunk recurse cs acc st = Ok (ids, st') ->
    exists ids', ids = acc ++ ids' /\ post st ids' st' /\
      (forall i, i ∈ ids' -> settled st' i) /\
      (forall child, child ∈ cs ->
         exists cc, store !! child = Some cc /\ id cc ∈ visitedByChunkId st').
Proof.
  intros Hrec cs. induction cs as [|depChunk cs IH]; intros acc st ids st' H.
  - injection H as <- <-. exists []. rewrite app_nil_r.
    split; [reflexivity|]. split; [apply post_nil|].
    split; intros x Hx; apply elem_of_nil in Hx; contradiction.
  - cbn [mapChunk] in H. apply obind_Ok in H as ([ids1 st1] & H1 & H).
    apply Hrec in H1 as (Hpost1 & Hset1 & c1 & Hc1 & Hvis1).
    apply IH in H as (ids2 & -> & Hpost2 & Hset2 & Hch2).
    exists (ids1 ++ ids2). split; [symmetry; apply app_assoc|].
    split; [exact (post_app _ _ _ _ _ Hpost1 Hpost2)|].
    pose proof (post_visited_mono _ _ _ Hpost2) as Hmono.
    split.
    + intros i Hi. apply elem_of_app in Hi as [Hi | Hi]; [|exact (Hset2 i Hi)].
      exact (settled_mono _ _ _ Hmono (post_log_mono _ _ _ Hpost2) (Hset1 i Hi)).
    + intros child Hin. apply elem_of_cons in Hin as [-> | Hin]; [|exact (Hch2 child Hin)].
      exists c1. split; [exact Hc1 | set_solver].
Qed.

Lemma processChunkRecursive_visits (fuel : nat) :
  unique_ids -> visits (processChunkRecursive fuel).
Proof.
  intros Huniq. induction fuel as [|fuel IH]; intros chunk st ids st' H;
    [discriminate H|].
  pose proof (processChunkRecursive_post _ _ _ _ _ H) as Hpost.
  split; [exact Hpost|]. clear Hpost.
  cbn [Resolver.processChunkRecursive] in H.
  apply obind_Ok in H as (c & Hc & H).
  destruct (store !! chunk) as [c0|] eqn:Hchunk; [|discriminate Hc].
  injection Hc as ->.
  case_bool_decide as Hvis.
  - injection H as <- <-. split; [set_solver | eauto].
  - apply obind_Ok in H as ([deps st2] & Hmap & H).
    apply obind_Ok in H as (st3 & Hann & H). injection H as <- <-.
    apply (mapChunk_visits _ IH) in Hmap as (deps' & Hdeps & Hpost & Hset & Hch).
    cbn [app] in Hdeps. subst deps'.
    pose proof Hpost as (Hv & _). cbn [visitedByChunkId] in Hv.
    apply annotateChunk_Ok in Hann as (Hv3 & Hdom3 & Hlog3).
    assert (forall j, j ∈ (hashByChunkId st2).*1 -> j ∈ (hashByChunkId st3).*1) as Hl.
    { intros j Hj. destruct Hlog3 as [[_ ->] | [_ [digest ->]]]; [exact Hj|].
      cbn [fmap list_fmap]. right. exact Hj. }
    assert (visitedByChunkId st2 ⊆ visitedByChunkId st3) as Hm by (rewrite Hv3; done).
    split.
    + intros i Hi. apply elem_of_cons in Hi as [-> | Hi];
        [|exact (settled_mono _ _ _ Hm Hl (Hset i Hi))].
      intros r c' Hr Hid.
      assert (r = chunk) as -> by exact (Huniq _ _ _ _ Hr Hchunk Hid).
      assert (c' = c) as -> by congruence.
      split.
      * intros child Hin. destruct (Hch child Hin) as (cc & Hcc & Hvcc).
        exists cc. split; [exact Hcc | set_solver].
      * intros Hne. destruct Hlog3 as [[Hnil _] | [_ [digest ->]]]; [contradiction|].
        cbn [fmap list_fmap fst]. left.
    + exists c. split; [reflexivity|]. rewrite Hv3, Hv. set_solver.
Qed.

Lemma reach_visited (st : state) :
  (forall i, i ∈ visitedByChunkId st -> settled st i) ->
  forall r r', reach r r' ->
  forall c c', store !! r = Some c -> id c ∈ visitedByChunkId st ->
               store !! r' = Some c' -> id c' ∈ visitedByChunkId st.
Proof.
  intros Hall r r' Hreach.
  induction Hreach as [r | r c0 child r' Hr Hin _ IH]; intros c c' Hc Hvis Hc'.
  - congruence.
  - assert (c0 = c) as -> by congruence.
    destruct (Hall _ Hvis r c Hc eq_refl) as [Hch _].
    destruct (Hch child Hin) as (cc & Hcc & Hvcc).
    exact (IH cc c' Hcc Hvcc Hc').
Qed.

(** *** All roots together *)

Lemma forEachRoot_inv (fuel : nat) (roots : list ref) :
  forall st st',
    forEachRoot fuel roots st = Ok st' ->
    (log_inv st -> log_inv st') /\
    visitedByChunkId st ⊆ visitedByChunkId st' /\
    dom (assets st') = dom (assets st) /\
    (unique_ids ->
     (forall i, i ∈ visitedByChunkId st -> settled st i) ->
     (forall i, i ∈ visitedByChunkId st' -> settled st' i)) /\
    (forall root c, root ∈ roots -> store !! root = Some c -> entry c = true ->
                    id c ∈ visitedByChunkId st').
Proof.
  induction roots as [|chunk roots IH]; intros st st' H.
  - injection H as <-.
    split; [|split; [|split; [|split]]]; try done.
    intros root c Hin. apply elem_of_nil in Hin. contradiction.
  - cbn [Resolver.forEachRoot] in H. apply obind_Ok in H as (c & Hc & H).
    destruct (store !! chunk) as [c0|] eqn:Hchunk; [|discriminate Hc].
    injection Hc as ->.
    destruct (entry c) eqn:Hentry.
    + apply obind_Ok in H as ([ids st1] & H1 & H).
      apply IH in H as (Hlog & Hmono & Hdom & Hsettled & Hroots).
      pose proof (processChunkRecursive_post _ _ _ _ _ H1) as Hpost.
      pose proof (post_visited_mono _ _ _ Hpost) as Hmono1.
      split; [|split; [|split; [|split]]].
      * intros Hinv. exact (Hlog (post_log_inv _ _ _ Hpost Hinv)).
      * set_solver.
      * destruct Hpost as (_ & _ & _ & Hdom1 & _). congruence.
      * intros Huniq Hall. apply (Hsettled Huniq). intros i Hi.
        destruct (processChunkRecursive_visits fuel Huniq _ _ _ _ H1)
          as (_ & Hset1 & _).
        destruct Hpost as (Hv & _). rewrite Hv in Hi.
        apply elem_of_union in Hi as [Hi | Hi].
        -- apply Hset1. apply elem_of_list_to_set in Hi. exact Hi.
        -- exact (settled_mono _ _ _ Hmono1
                    (post_log_mono _ _ _ (processChunkRecursive_post _ _ _ _ _ H1))
                    (Hall i Hi)).
      * intros root c' Hin Hr He. apply elem_of_cons in Hin as [-> | Hin];
          [|exact (Hroots root c' Hin Hr He)].
        assert (c' = c) as -> by congruence.
        destruct Hpost as (Hv & Hnd & Hnew & _).
        apply Hmono.
        destruct fuel as [|fuel]; [discriminate H1|].
        cbn [Resolver.processChunkRecursive] in H1. rewrite Hchunk in H1.
        cbn [deref mbind outcome_bind obind] in H1.
        case_bool_decide as Hvis.
        -- injection H1 as <- <-. exact Hvis.
        -- apply obind_Ok in H1 as ([deps st2] & _ & H1).
           apply obind_Ok in H1 as (st3 & _ & H1). injection H1 as <- <-.
           rewrite Hv. set_solver.
    + apply IH in H as (Hlog & Hmono & Hdom & Hsettled & Hroots).
      split; [|split; [|split; [|split]]]; try assumption.
      intros root c' Hin Hr He. apply elem_of_cons in Hin as [-> | Hin];
        [congruence | exact (Hroots root c' Hin Hr He)].
Qed.

End Traversal.

(** ** The traversal returns or throws *)

Lemma store_ids_lookup (store : gmap ref Chunk) (r : ref) (c : Chunk) :
  store !! r = Some c -> id c ∈ store_ids store.
Proof.
  intros H. unfold store_ids. apply elem_of_list_to_set, list_elem_of_fmap.
  exists (r, c). split; [reflexivity|]. apply elem_of_map_to_list. exact H.
Qed.

Section Termination.

Variable createHash : string -> option (string -> string).
Variable algorithms : list jsval.
Variable store : gmap ref Chunk.

Lemma unvisited_mono (st st' : state) :
  visitedByChunkId st ⊆ visitedByChunkId st' -> unvisited store st' <= unvisited store st.
Proof. intros H. unfold unvisited. apply subseteq_size. set_solver. Qed.

Lemma mapM_mapAlgo_fuel (source : string) (algos : list jsval) :
  mapM (mapAlgo createHash source) algos <> OutOfFuel.
Proof.
  induction algos as [|a algos IH]; [discriminate|].
  cbn [mapM]. destruct a as [| | | | name | |]; cbn; try discriminate.
  destruct (createHash name); cbn; [|discriminate].
  destruct (mapM (mapAlgo createHash source) algos); outcome_simpl; congruence.
Qed.

Lemma computeIntegrity_fuel (source : string) :
  computeIntegrity createHash algorithms source <> OutOfFuel.
Proof.
  unfold computeIntegrity. pose proof (mapM_mapAlgo_fuel source algorithms) as H.
  destruct (mapM (mapAlgo createHash source) algorithms); cbn; congruence.
Qed.

Lemma annotateChunk_fuel (c : Chunk) (deps : list nat) (st : state) :
  annotateChunk createHash algorithms c deps st <> OutOfFuel.
Proof.
  unfold annotateChunk. destruct (files c) as [|chunkFile rest]; [discriminate|].
  destruct (assets st !! chunkFile) as [asset|]; cbn; [|discriminate].
  match goal with |- context [computeIntegrity _ _ ?s] =>
    pose proof (computeIntegrity_fuel s) as H;
    destruct (computeIntegrity createHash algorithms s) end; cbn; congruence.
Qed.

Lemma mapChunk_fuel (recurse : ref -> state -> outcome (list nat * state)) (n : nat) :
  (forall chunk st, unvisited store st < n -> recurse chunk st <> OutOfFuel) ->
  (forall chunk st ids st', recurse chunk st = Ok (ids, st') -> post st ids st') ->
  forall cs acc st, unvisited store st < n -> mapChunk recurse cs acc st <> OutOfFuel.
Proof.
  intros Hfuel Hpost cs. induction cs as [|depChunk cs IH]; intros acc st Hlt;
    [discriminate|].
  cbn [mapChunk]. specialize (Hfuel depChunk st Hlt).
  destruct (recurse depChunk st) as [[ids st1]| |] eqn:E; cbn; [|discriminate|congruence].
  apply IH. apply Hpost, post_visited_mono, unvisited_mono in E. lia.
Qed.

Lemma processChunkRecursive_fuel (fuel : nat) :
  forall chunk st,
    unvisited store st < fuel ->
    processChunkRecursive createHash algorithms store fuel chunk st <> OutOfFuel.
Proof.
  induction fuel as [|fuel IH]; intros chunk st Hlt; [lia|].
  cbn [processChunkRecursive].
  destruct (store !! chunk) as [c|] eqn:Hc; cbn; [|discriminate].
  case_bool_decide as Hvis; [discriminate|].
  set (st1 := mkState _ _ _).
  assert (unvisited store st1 < fuel) as Hlt1.
  { assert (unvisited store st1 < unvisited store st); [|lia].
    unfold unvisited. apply subset_size. subst st1. cbn [visitedByChunkId].
    pose proof (store_ids_lookup _ _ _ Hc). set_solver. }
  pose proof (mapChunk_fuel _ fuel IH
                (processChunkRecursive_post createHash algorithms store fuel)
                (chunks c) [] st1 Hlt1) as Hmap.
  destruct (mapChunk _ (chunks c) [] st1) as [[deps st2]| |]; cbn;
    [|discriminate|congruence].
  pose proof (annotateChunk_fuel c deps st2) as Hann.
  destruct (annotateChunk createHash algorithms c deps st2); cbn; congruence.
Qed.

Lemma forEachRoot_fuel (fuel : nat) (roots : list ref) :
  forall st,
    unvisited store st < fuel ->
    forEachRoot createHash algorithms store fuel roots st <> OutOfFuel.
Proof.
  induction roots as [|chunk roots IH]; intros st Hlt; [discriminate|].
  cbn [forEachRoot]. destruct (store !! chunk) as [c|]; cbn; [|discriminate].
  destruct (entry c); [|exact (IH st Hlt)].
  pose proof (processChunkRecursive_fuel fuel chunk st Hlt) as H.
  destruct (processChunkRecursive _ _ _ fuel chunk st) as [[ids st1]| |] eqn:E; cbn;
    [|discriminate|congruence].
  apply IH.
  apply processChunkRecursive_post, post_visited_mono, unvisited_mono in E. lia.
Qed.

(** More fuel does not change a result that was reached. *)
Lemma mapChunk_more_fuel
    (recurse1 recurse2 : ref -> state -> outcome (list nat * state)) :
  (forall chunk st, recurse1 chunk st <> OutOfFuel ->
                    recurse2 chunk st = recurse1 chunk st) ->
  forall cs acc st,
    mapChunk recurse1 cs acc st <> OutOfFuel ->
    mapChunk recurse2 cs acc st = mapChunk recurse1 cs acc st.
Proof.
  intros Hrec cs. induction cs as [|depChunk cs IH]; intros acc st H; [reflexivity|].
  cbn [mapChunk] in *.
  destruct (recurse1 depChunk st) as [[ids st1]| |] eqn:E.
  - rewrite (Hrec depChunk st) by congruence. rewrite E. outcome_simpl.
    apply IH. exact H.
  - rewrite (Hrec depChunk st) by congruence. rewrite E. reflexivity.
  - outcome_simpl. congruence.
Qed.

Lemma processChunkRecursive_S (fuel : nat) (chunk : ref) (st : state) :
  processChunkRecursive createHash algorithms store (S fuel) chunk st =
  c ← deref (store !! chunk);
  if bool_decide (id c ∈ visitedByChunkId st) then Ok ([], st)
  else
    '(depChunkIds, st2) ←
      mapChunk (processChunkRecursive createHash algorithms store fuel) (chunks c) []
               (mkState (assets st) (hashByChunkId st) ({[id c]} ∪ visitedByChunkId st));
    st3 ← annotateChunk createHash algorithms c depChunkIds st2;
    Ok (id c :: depChunkIds, st3).
Proof. reflexivity. Qed.

Lemma processChunkRecursive_more_fuel (fuel : nat) :
  forall chunk st,
    processChunkRecursive createHash algorithms store fuel chunk st <> OutOfFuel ->
    processChunkRecursive createHash algorithms store (S fuel) chunk st =
    processChunkRecursive createHash algorithms store fuel chunk st.
Proof.
  induction fuel as [|fuel IH]; intros chunk st H; [contradiction H; reflexivity|].
  rewrite (processChunkRecursive_S (S fuel)), (processChunkRecursive_S fuel).
  rewrite (processChunkRecursive_S fuel) in H.
  destruct (store !! chunk) as [c|]; [|reflexivity]. outcome_simpl.
  case_bool_decide as Hvis; [reflexivity|].
  rewrite (mapChunk_more_fuel _ _ IH); [reflexivity|].
  intros Hmap. rewrite Hmap in H. outcome_simpl. congruence.
Qed.

Lemma forEachRoot_more_fuel (fuel : nat) (roots : list ref) :
  forall st,
    forEachRoot createHash algorithms store fuel roots st <> OutOfFuel ->
    forEachRoot createHash algorithms store (S fuel) roots st =
    forEachRoot createHash algorithms store fuel roots st.
Proof.
  induction roots as [|chunk roots IH]; intros st H; [reflexivity|].
  cbn [forEachRoot] in *. destruct (store !! chunk) as [c|]; [|reflexivity].
  outcome_simpl. destruct (entry c); [|exact (IH st H)].
  destruct (processChunkRecursive createHash algorithms store fuel chunk st)
    as [[ids st1]| |] eqn:E.
  - rewrite processChunkRecursive_more_fuel by congruence. rewrite E. outcome_simpl.
    apply IH. exact H.
  - rewrite processChunkRecursive_more_fuel by congruence. rewrite E. reflexivity.
  - outcome_simpl. congruence.
Qed.

Lemma sweep_swept (m : gmap string Asset) :
  swept createHash algorithms m (sweep createHash algorithms m).
Proof.
  unfold sweep. apply (map_fold_weak_ind (fun r m0 => swept createHash algorithms m0 r)).
  - split; [discriminate|]. intros m' [= <-] key. rewrite !lookup_empty. reflexivity.
  - intros key asset m0 r Hnone [Hfuel Hok]. split.
    + destruct r as [done_| |]; cbn; [|discriminate|congruence].
      unfold sweepAsset. destruct (truthy (integrity asset)); cbn; [discriminate|].
      pose proof (computeIntegrity_fuel (source asset)) as H.
      destruct (computeIntegrity createHash algorithms (source asset)); cbn; congruence.
    + intros m' H. apply obind_Ok in H as (m1 & -> & H).
      apply obind_Ok in H as (asset' & Hasset' & [= <-]).
      intros key'. destruct (decide (key = key')) as [<- | Hne].
      * rewrite !lookup_insert_eq. eauto.
      * rewrite !lookup_insert_ne by exact Hne. exact (Hok m1 eq_refl key').
Qed.

End Termination.

Theorem optimizeAssetsPlugin_returns_or_throws createHash (algorithms : list jsval)
    (store : gmap ref Chunk) (roots : list ref) (m : gmap string Asset) :
  optimizeAssetsPlugin createHash algorithms store
    (S (size (store_ids store))) roots m <> OutOfFuel.
Proof.
  unfold optimizeAssetsPlugin.
  assert (unvisited store (initial m) < S (size (store_ids store))) as Hlt.
  { unfold unvisited. apply Nat.lt_succ_r, subseteq_size. set_solver. }
  pose proof (forEachRoot_fuel createHash algorithms store _ roots _ Hlt) as H.
  destruct (forEachRoot _ _ _ _ roots (initial m)) as [st| |]; outcome_simpl;
    [|discriminate|congruence].
  apply sweep_swept.
Qed.

(** ** The digests of one run *)

Lemma string_concat_length (sep p : string) (ps : list string) :
  String.length p <= String.length (String.concat sep (p :: ps)).
Proof.
  destruct ps as [|q ps]; cbn [String.concat]; [lia|].
  rewrite string_length_app. lia.
Qed.

Lemma computeIntegrity_truthy createHash (algorithms : list jsval)
    (source digest : string) :
  algorithms <> [] ->
  computeIntegrity createHash algorithms source = Ok digest ->
  truthy (Some digest) = true.
Proof.
  intros Hne H. unfold computeIntegrity in H.
  apply obind_Ok in H as (parts & Hparts & [= <-]).
  destruct algorithms as [|a algos]; [contradiction|].
  cbn [mapM] in Hparts. apply obind_Ok in Hparts as (p & Hp & Hparts).
  apply obind_Ok in Hparts as (ps & _ & [= <-]).
  assert (0 < String.length p) as Hlen.
  { destruct a as [| | | | name | |]; try discriminate Hp. cbn [mapAlgo] in Hp.
    destruct (createHash name) as [d|]; [|discriminate Hp]. injection Hp as <-.
    rewrite !string_length_app. cbn [String.length]. lia. }
  pose proof (string_concat_length " " p ps) as Hle.
  cbn [truthy]. apply negb_true_iff, String.eqb_neq. intros Heq.
  rewrite Heq in Hle. cbn [String.length] in Hle. lia.
Qed.


Lemma diamond_resolved_Ok :
  forEachRoot demoCreateHash [JSStr "sha256"] diamond_store 5 [0; 1; 2; 3]
              (initial diamond_assets) = Ok diamond_resolved.
Proof. vm_compute. reflexivity. Qed.


Example diamond_digest_order :
  (hashByChunkId diamond_resolved).*1 = [0; 2; 1; 3].
Proof. vm_compute. reflexivity. Qed.

(** C8: when the handler returns and at least one algorithm is
    configured, the asset map has the keys it had, every asset in it has
    a non-empty [integrity], an asset that came out of the traversal
    with one keeps it, and an asset that came out without one gets the
    digest of its text as it stands, with nothing spliced in. *)
Theorem every_asset_gets_integrity createHash (algorithms : list jsval)
    (store : gmap ref Chunk) (fuel : nat) (roots : list ref)
    (m final : gmap string Asset) :
  algorithms <> [] ->
  optimizeAssetsPlugin createHash algorithms store fuel roots m = Ok final ->
  dom final = dom m /\
  (forall key asset, final !! key = Some asset -> truthy (integrity asset) = true) /\
  exists st,
    forEachRoot createHash algorithms store fuel roots (initial m) = Ok st /\
    forall key asset,
      assets st !! key = Some asset ->
      if truthy (integrity asset) then final !! key = Some asset
      else exists digest,
          computeIntegrity createHash algorithms (source asset) = Ok digest /\
          final !! key = Some (mkAsset (source asset) (Some digest)).
Proof.
  intros Hne H. unfold optimizeAssetsPlugin in H.
  apply obind_Ok in H as (st & Hst & Hsweep).
  destruct (sweep_swept createHash algorithms (assets st)) as [_ Hswept].
  specialize (Hswept final Hsweep).
  assert (forall key asset, assets st !! key = Some asset ->
            if truthy (integrity asset) then final !! key = Some asset
            else exists digest,
                computeIntegrity createHash algorithms (source asset) = Ok digest /\
                final !! key = Some (mkAsset (source asset) (Some digest))) as Hkeys.
  { intros key asset Hkey. specialize (Hswept key). rewrite Hkey in Hswept.
    destruct Hswept as (asset' & Hasset' & Hfinal). unfold sweepAsset in Hasset'.
    destruct (truthy (integrity asset)); [congruence|].
    apply obind_Ok in Hasset' as (digest & Hdigest & [= <-]). eauto. }
  split; [|split].
  - apply forEachRoot_inv in Hst as (_ & _ & Hdom & _). cbn [initial assets] in Hdom.
    rewrite <- Hdom. apply set_eq. intros key. rewrite !elem_of_dom.
    specialize (Hswept key). destruct (assets st !! key) as [asset|].
    + destruct Hswept as (asset' & _ & ->). split; eauto.
    + rewrite Hswept. reflexivity.
  - intros key asset' Hfinal. specialize (Hswept key).
    destruct (assets st !! key) as [asset|] eqn:Hkey; [|congruence].
    specialize (Hkeys key asset Hkey).
    destruct (truthy (integrity asset)) eqn:Ht.
    + congruence.
    + destruct Hkeys as (digest & Hdigest & Hfinal').
      rewrite Hfinal' in Hfinal. injection Hfinal as <-.
      exact (computeIntegrity_truthy _ _ _ _ Hne Hdigest).
  - exists st. split; [exact Hst | exact Hkeys].
Qed.

Lemma every_asset_gets_integrity_witness :
  dom diamond_final = dom diamond_assets /\
  forall key asset,
    diamond_final !! key = Some asset -> truthy (integrity asset) = true.
Proof.
  assert (optimizeAssetsPlugin demoCreateHash [JSStr "sha256"] diamond_store 5
            [0; 1; 2; 3] diamond_assets = Ok diamond_final) as H
    by (vm_compute; reflexivity).
  assert ([JSStr "sha256"] <> []) as Hne by discriminate.
  destruct (every_asset_gets_integrity demoCreateHash [JSStr "sha256"] diamond_store
              5 [0; 1; 2; 3] diamond_assets diamond_final Hne H) as (Hdom & Hall & _).
  exact (conj Hdom Hall).
Defined.

Example diamond_final_logo :
  diamond_final !! "logo.svg" = Some (mkAsset "<svg/>" (Some "sha256-H(<svg/>)")).
Proof. vm_compute. reflexivity. Qed.

(** ** Markup tags *)

Example strip_query_hash : strip_query "app.js?abc123" = "app.js".
Proof. reflexivity. Qed.

Example strip_query_key_value : strip_query "app.js?v=123" = "app.js?v=123".
Proof. reflexivity. Qed.

Lemma strip_query_cons (c : ascii) (rest : string) :
  strip_query (String c rest) =
  if query_matches (String c rest) then "" else String c (strip_query rest).
Proof. reflexivity. Qed.

Lemma all_alnum_question (a b : string) : all_alnum (a +:+ String "?" b) = false.
Proof.
  induction a as [|x a IH]; [reflexivity|].
  rewrite string_app_cons. cbn [all_alnum]. rewrite IH. apply andb_false_r.
Qed.

Lemma strip_query_alnum (pre q : string) :
  q <> "" -> all_alnum q = true -> strip_query (pre +:+ "?" +:+ q) = pre.
Proof.
  intros Hq Halnum. change ("?" +:+ q) with (String "?" q).
  induction pre as [|c pre IH].
  - rewrite string_app_nil_l, strip_query_cons. cbn [query_matches].
    rewrite Halnum. apply String.eqb_neq in Hq. rewrite Hq. reflexivity.
  - rewrite string_app_cons, strip_query_cons. cbn [query_matches].
    rewrite all_alnum_question, andb_false_r. f_equal. exact IH.
Qed.

Lemma strip_query_no_match (s : string) :
  (forall pre q, s = pre +:+ "?" +:+ q -> q = "" \/ all_alnum q = false) ->
  strip_query s = s.
Proof.
  induction s as [|c rest IH]; intros Hno; [reflexivity|].
  rewrite strip_query_cons.
  destruct (query_matches (String c rest)) eqn:Hm.
  - exfalso. cbn [query_matches] in Hm.
    apply andb_prop in Hm as [Hm Halnum]. apply andb_prop in Hm as [Hc Hrest].
    apply Ascii.eqb_eq in Hc. subst c.
    destruct (Hno "" rest eq_refl) as [-> | Hf];
      [cbn in Hrest; discriminate Hrest | congruence].
  - f_equal. apply IH. intros pre q ->.
    exact (Hno (String c pre) q eq_refl).
Qed.

(** C3, as the code has it: on a script or link tag with a reference,
    the reference loses a trailing question mark followed by letters and
    digits only, and is kept whole when it has no such ending; if the
    key computed from the result names an asset with a non-empty
    integrity, the tag gets that value as [integrity] and [anonymous] as
    [crossorigin], and no warning is added. *)
Theorem tag_gains_integrity
    (path_relative : string -> string -> string)
    (path_resolve : string -> string -> string -> string)
    (path_dirname : string -> string)
    (outputPath : string) (publicPath : option string) (filename : string)
    (compilationAssets : gmap string Asset)
    (tag : Tag) (ref : string) (asset : Asset) (checksum : string)
    (warnings : list exn) :
  filterTag tag = true ->
  js_or (attributes tag !! "href") (attributes tag !! "src") = Some ref ->
  compilationAssets !!
    assetKey path_relative path_resolve path_dirname outputPath publicPath filename
             (strip_query ref) = Some asset ->
  integrity asset = Some checksum ->
  checksum <> "" ->
  getTagSrc tag = Some (strip_query ref) /\
  (forall pre q, ref = pre +:+ "?" +:+ q -> q <> "" -> all_alnum q = true ->
                 strip_query ref = pre) /\
  ((forall pre q, ref = pre +:+ "?" +:+ q -> q = "" \/ all_alnum q = false) ->
   strip_query ref = ref) /\
  processTag path_relative path_resolve path_dirname outputPath publicPath filename
             compilationAssets tag warnings =
  Ok (mkTag (tagName tag)
            (<["crossorigin" := "anonymous"]>
               (<["integrity" := checksum]> (attributes tag))),
      warnings).
Proof.
  intros Hfilter Href Hasset Hint Hne.
  assert (getTagSrc tag = Some (strip_query ref)) as Hsrc.
  { unfold filterTag in Hfilter. apply andb_prop in Hfilter as [_ Ht].
    unfold getTagSrc in *. rewrite Href in *.
    destruct (truthy (Some ref)) eqn:E; [reflexivity | congruence]. }
  split; [exact Hsrc|]. split; [|split].
  - intros pre q -> Hq Halnum. apply strip_query_alnum; assumption.
  - apply strip_query_no_match.
  - unfold processTag. rewrite Hsrc. cbn [deref mbind outcome_bind obind].
    unfold getIntegrityChecksumForAsset. rewrite Hasset. cbn [mbind option_bind].
    rewrite Hint. cbn [truthy]. apply String.eqb_neq in Hne. rewrite Hne.
    reflexivity.
Qed.

Lemma tag_gains_integrity_witness :
  demo_processTag app_assets (script_tag "app.js?abc123") [] =
  Ok (mkTag "script"
            (<["crossorigin" := "anonymous"]>
               (<["integrity" := "sha256-AAAA"]> {[ "src" := "app.js?abc123" ]})),
      []).
Proof.
  refine (proj2 (proj2 (proj2
    (tag_gains_integrity demo_relative demo_resolve demo_dirname "/out" None
       "index.html" app_assets (script_tag "app.js?abc123") "app.js?abc123"
       (mkAsset "console.log(1)" (Some "sha256-AAAA")) "sha256-AAAA" [] _ _ _ _ _)))).
  - reflexivity.
  - reflexivity.
  - reflexivity.
  - reflexivity.
  - discriminate.
Defined.

(** A query of the form [?v=123] is not cut off: the tag is looked up
    under the whole reference, no asset is found, and the tag is left as
    it was with a warning, although [app.js] has an integrity value. *)
Lemma query_with_equals_sign_is_kept :
  filterTag (script_tag "app.js?v=123") = true /\
  strip_any_query "app.js?v=123" = "app.js" /\
  getTagSrc (script_tag "app.js?v=123") = Some "app.js?v=123" /\
  getTagSrc (script_tag "app.js?v=123") <> Some (strip_any_query "app.js?v=123") /\
  demo_processTag app_assets (script_tag "app.js?v=123") [] =
  Ok (script_tag "app.js?v=123",
      [Error "webpack-subresource-integrity: cannot determine hash for asset 'app.js?v=123', the resource will be unprotected."]).
Proof. repeat split; (reflexivity || discriminate). Qed.

(** ** Shared chunks *)

(** The early return of lines 99-101: a chunk whose id is marked hands
    no ids back, also not the ids below it. *)
Lemma processChunkRecursive_visited createHash (algorithms : list jsval)
    (store : gmap ref Chunk) (fuel : nat) (chunk : ref) (c : Chunk) (st : state) :
  store !! chunk = Some c ->
  id c ∈ visitedByChunkId st ->
  processChunkRecursive createHash algorithms store (S fuel) chunk st = Ok ([], st).
Proof.
  intros Hc Hvis. cbn [processChunkRecursive]. rewrite Hc.
  cbn [deref mbind outcome_bind obind]. rewrite bool_decide_eq_true_2 by exact Hvis.
  reflexivity.
Qed.

(** C1, on the diamond and on two roots with a common child: whatever
    the digest function, the shared chunk gets its digest and the digest
    is spliced into the file of the parent that is visited first; the
    file of the other parent keeps the placeholder, and that parent's
    digest is the one of the text with the placeholder in it. *)
Theorem diamond_second_parent_keeps_placeholder (digest : string -> string) :
  let createHash := fun _ : string => Some digest in
  let d3 := "sha256-" +:+ digest "D" in
  let d2 := "sha256-" +:+ digest "S" in
  (exists st final,
     forEachRoot createHash [JSStr "sha256"] diamond_store 5 [0; 1; 2; 3]
                 (initial diamond_assets) = Ok st /\
     optimizeAssetsPlugin createHash [JSStr "sha256"] diamond_store 5 [0; 1; 2; 3]
                          diamond_assets = Ok final /\
     hashOf (hashByChunkId st) 3 = Some d3 /\
     final !! "b.js" =
       Some (mkAsset ("B 3:" +:+ d3 +:+ ";")
                     (Some ("sha256-" +:+ digest ("B 3:" +:+ d3 +:+ ";")))) /\
     final !! "c.js" =
       Some (mkAsset "C 3:*-*-*-CHUNK-SRI-HASH-3-*-*-*;"
                     (Some ("sha256-" +:+ digest "C 3:*-*-*-CHUNK-SRI-HASH-3-*-*-*;")))) /\
  (exists final,
     optimizeAssetsPlugin createHash [JSStr "sha256"] two_roots_store 4 [0; 1; 2]
                          two_roots_assets = Ok final /\
     source <$> final !! "one.js" = Some ("var sriHashes = {2:'" +:+ d2 +:+ "'};") /\
     source <$> final !! "two.js" =
       Some "var sriHashes = {2:'*-*-*-CHUNK-SRI-HASH-2-*-*-*'};").
Proof.
  intros createHash d3 d2. subst createHash d3 d2. split.
  - eexists. eexists.
    split; [vm_compute; reflexivity|].
    split; [vm_compute; reflexivity|].
    repeat split; vm_compute; reflexivity.
  - eexists. split; [vm_compute; reflexivity|].
    split; vm_compute; reflexivity.
Qed.

(** The same with the files the loader-code hook emits: both roots get
    a placeholder for the shared chunk, and the one in the second root is
    still there when the handler is done. *)
Example emitted_placeholder_survives :
  let final := ok_or ∅ (optimizeAssetsPlugin demoCreateHash [JSStr "sha256"]
                          two_roots_store 4 [0; 1; 2] emitted_assets) in
  emitted_local_vars 1 =
    "// runtime" +:+ newline +:+ "var sriHashes = {" +:+ newline +:+
    String (ascii_of_nat 9) EmptyString +:+ "2:" +:+ dquote +:+
    "*-*-*-CHUNK-SRI-HASH-2-*-*-*" +:+ dquote +:+ newline +:+ "};" /\
  (String.index 0 (makePlaceholder 2) ∘ source) <$> final !! "one.js" = Some None /\
  source <$> final !! "two.js" = Some (emitted_local_vars 1).
Proof. repeat split; vm_compute; reflexivity. Qed.

(** ** Collecting dependent ids *)

(** C2, on two chunks that load each other: no bound on the depth of
    the recursion is enough for [findDepChunks] to return. *)
Theorem findDepChunks_diverges_on_cycle (fuel : nat) :
  findDepChunks cyclic_store fuel 0 [] = OutOfFuel.
Proof. apply findDepChunks_cyclic_any. Qed.

(** The traversal of the same two chunks by [processChunkRecursive]
    returns. *)
Example processChunkRecursive_cycle_returns :
  fst <$> (match processChunkRecursive demoCreateHash [JSStr "sha256"] cyclic_store 3 0
                   (initial {[ "a.js" := mkAsset "A" None; "b.js" := mkAsset "B" None ]})
           with Ok r => Some r | _ => None end) = Some [0; 1].
Proof. vm_compute. reflexivity. Qed.

(** When [findDepChunks] returns, the ids it has added are new ones:
    an array without repetitions stays without repetitions. *)
Lemma findDepChunks_NoDup (store : gmap ref Chunk) (fuel : nat) :
  forall chunk acc acc',
    findDepChunks store fuel chunk acc = Ok acc' -> NoDup acc -> NoDup acc'.
Proof.
  induction fuel as [|fuel IH]; intros chunk acc acc' H Hnd; [discriminate H|].
  cbn [findDepChunks] in H. apply obind_Ok in H as (c & _ & H).
  revert acc H Hnd. induction (chunks c) as [|depChunk cs IHcs]; intros acc H Hnd.
  - injection H as <-. exact Hnd.
  - apply obind_Ok in H as (d & _ & H). apply obind_Ok in H as (acc2 & H2 & H).
    apply (IHcs acc2 H). apply (IH _ _ _ H2).
    unfold includes. case_bool_decide as Hin; [exact Hnd|].
    apply NoDup_app. repeat split; [exact Hnd | | apply NoDup_singleton].
    intros i Hi Hi'. apply list_elem_of_singleton in Hi'. subst i. exact (Hin Hi).
Qed.

Lemma reach_snoc (store : gmap ref Chunk) (a b child : ref) (cb : Chunk) :
  reach store a b -> store !! b = Some cb -> child ∈ chunks cb ->
  reach store a child.
Proof.
  induction 1 as [r | r c x r' Hr Hin _ IH]; intros Hb Hchild.
  - exact (reach_child store r cb child child Hb Hchild (reach_here store child)).
  - exact (reach_child store r c x child Hr Hin (IH Hb Hchild)).
Qed.

Lemma on_cycle_child (store : gmap ref Chunk) (r child : ref) (c : Chunk) :
  store !! r = Some c -> child ∈ chunks c -> reach store child r ->
  on_cycle store child.
Proof.
  intros Hr Hin Hreach. inversion Hreach as [r0 | r0 c0 x r' Hc0 Hx Hrest]; subst.
  - exists c, r. split; [exact Hr|]. split; [exact Hin | apply reach_here].
  - exists c0, x. split; [exact Hc0|]. split; [exact Hx|].
    exact (reach_snoc store x r child c Hrest Hr Hin).
Qed.

(** On a chunk that lies on a cycle [findDepChunks] does not return,
    whatever the bound on the depth of the recursion. *)
Lemma findDepChunks_on_cycle (store : gmap ref Chunk) (fuel : nat) :
  forall r acc res,
    on_cycle store r -> findDepChunks store fuel r acc <> Ok res.
Proof.
  induction fuel as [|fuel IH]; intros r acc res (c & child & Hc & Hin & Hreach) H;
    [discriminate H|].
  pose proof (on_cycle_child store r child c Hc Hin Hreach) as Hcycle.
  cbn [findDepChunks] in H. rewrite Hc in H. cbn [deref mbind outcome_bind obind] in H.
  clear Hc Hreach. revert acc H.
  induction (chunks c) as [|x cs IHcs]; intros acc H.
  - apply elem_of_nil in Hin. contradiction.
  - apply obind_Ok in H as (d & _ & H). apply obind_Ok in H as (acc2 & H2 & H).
    apply elem_of_cons in Hin as [<- | Hin].
    + exact (IH child _ acc2 Hcycle H2).
    + exact (IHcs Hin acc2 H).
Qed.

Example cyclic_store_on_cycle : on_cycle cyclic_store 0.
Proof.
  exists (mkChunk 0 ["a.js"] [1] true), 1.
  split; [reflexivity|]. split; [set_solver|].
  apply (reach_child cyclic_store 1 (mkChunk 1 ["b.js"] [0] false) 0 0);
    [reflexivity | set_solver | apply reach_here].
Qed.

(** ** Further properties: placeholders *)

Lemma to_uint_nonnil (n : nat) : Nat.to_uint n <> Decimal.Nil.
Proof.
  rewrite <- (Unsigned.of_to n) at 1. rewrite Unsigned.to_of.
  apply unorm_nonnil.
Qed.

Lemma string_of_id_inj (i j : nat) : string_of_id i = string_of_id j -> i = j.
Proof.
  unfold string_of_id. intros H.
  apply (f_equal NilZero.uint_of_string) in H.
  rewrite !NilZero.usu in H by apply to_uint_nonnil.
  injection H as H. exact (Unsigned.to_uint_inj _ _ H).
Qed.

Lemma string_app_inv_l (a b c : string) : a +:+ b = a +:+ c -> b = c.
Proof.
  induction a as [|x a IH]; [trivial|].
  rewrite !string_app_cons. intros [= H]. exact (IH H).
Qed.

Lemma string_app_inv_r (a b c : string) : a +:+ c = b +:+ c -> a = b.
Proof.
  revert b. induction a as [|x a IH]; intros [|y b] H.
  - reflexivity.
  - apply (f_equal String.length) in H. rewrite !string_length_app in H.
    cbn [String.length] in H. lia.
  - apply (f_equal String.length) in H. rewrite !string_length_app in H.
    cbn [String.length] in H. lia.
  - rewrite !string_app_cons in H. injection H as -> H. f_equal. exact (IH _ H).
Qed.

(** X1: different chunk ids have different placeholders. *)
Theorem makePlaceholder_inj (i j : nat) :
  i <> j -> makePlaceholder i <> makePlaceholder j.
Proof.
  unfold makePlaceholder. intros Hne H. apply Hne.
  apply string_app_inv_l, string_app_inv_r in H. exact (string_of_id_inj _ _ H).
Qed.

Lemma makePlaceholder_inj_witness : makePlaceholder 1 <> makePlaceholder 11.
Proof. apply (makePlaceholder_inj 1 11). lia. Defined.

(** ** Further properties: collecting dependent ids *)

Lemma reach_descends (store : gmap ref Chunk) (chunk child r : ref) (c : Chunk) :
  store !! chunk = Some c -> child ∈ chunks c -> descends store child r ->
  descends store chunk r.
Proof.
  intros Hc Hin (cc & x & Hcc & Hx & Hreach).
  exists c, child. split; [exact Hc|]. split; [exact Hin|].
  exact (reach_child store child cc x r Hcc Hx Hreach).
Qed.

(** What one call of [findDepChunks] adds: ids that were not in the
    array, each once, all of them ids of chunks below the given one. *)
Lemma findDepChunks_adds (store : gmap ref Chunk) (fuel : nat) :
  forall chunk acc acc',
    findDepChunks store fuel chunk acc = Ok acc' ->
    exists new,
      acc' = acc ++ new /\ NoDup new /\ (forall i, i ∈ new -> i ∉ acc) /\
      forall i, i ∈ new ->
        exists r c, descends store chunk r /\ store !! r = Some c /\ id c = i.
Proof.
  induction fuel as [|fuel IH]; intros chunk acc acc' H; [discriminate H|].
  cbn [findDepChunks] in H. apply obind_Ok in H as (c & Hc & H).
  destruct (store !! chunk) as [c0|] eqn:Hchunk; [|discriminate Hc].
  injection Hc as ->.
  assert (forall cs acc acc',
    (forall x, x ∈ cs -> x ∈ chunks c) ->
    (fix forEachChunk (cs : list ref) (acc : list nat) : outcome (list nat) :=
       match cs with
       | [] => Ok acc
       | depChunk :: cs' =>
         d ← deref (store !! depChunk);
         let acc1 := if includes (id d) acc then acc else acc ++ [id d] in
         acc2 ← findDepChunks store fuel depChunk acc1;
         forEachChunk cs' acc2
       end) cs acc = Ok acc' ->
    exists new,
      acc' = acc ++ new /\ NoDup new /\ (forall i, i ∈ new -> i ∉ acc) /\
      forall i, i ∈ new ->
        exists r c', descends store chunk r /\ store !! r = Some c' /\ id c' = i)
    as Hloop.
  { clear acc acc' H. intros cs. induction cs as [|x cs IHcs]; intros acc acc' Hsub H.
    - injection H as <-. exists []. rewrite app_nil_r.
      split; [reflexivity|]. split; [constructor|].
      split; intros i Hi; apply elem_of_nil in Hi; contradiction.
    - apply obind_Ok in H as (d & Hd & H). apply obind_Ok in H as (acc2 & H2 & H).
      destruct (store !! x) as [d0|] eqn:Hx; [|discriminate Hd]. injection Hd as ->.
      assert (x ∈ chunks c) as Hxin by (apply Hsub; left).
      apply IH in H2 as (new1 & -> & Hnd1 & Hfresh1 & Hdesc1).
      apply IHcs in H as (new2 & -> & Hnd2 & Hfresh2 & Hdesc2);
        [|intros y Hy; apply Hsub; right; exact Hy].
      assert (forall i, i ∈ new1 -> exists r c',
                 descends store chunk r /\ store !! r = Some c' /\ id c' = i) as Hd1.
      { intros i Hi. destruct (Hdesc1 i Hi) as (r & c' & Hr & Hc' & Hid).
        exists r, c'. split; [|split; assumption].
        exact (reach_descends store chunk x r c Hchunk Hxin Hr). }
      unfold includes in *. case_bool_decide as Hin.
      + exists (new1 ++ new2). split; [symmetry; apply app_assoc|].
        split.
        { apply NoDup_app. repeat split; [exact Hnd1 | | exact Hnd2].
          intros i H1 H2'. apply (Hfresh2 i H2'). apply elem_of_app. right. exact H1. }
        split.
        { intros i Hi Hacc. apply elem_of_app in Hi as [Hi | Hi].
          - exact (Hfresh1 i Hi Hacc).
          - apply (Hfresh2 i Hi). apply elem_of_app. left. exact Hacc. }
        intros i Hi. apply elem_of_app in Hi as [Hi | Hi]; [exact (Hd1 i Hi)|].
        exact (Hdesc2 i Hi).
      + exists (id d :: new1 ++ new2). split.
        { rewrite <- !app_assoc. reflexivity. }
        split.
        { constructor.
          - intros Hi. apply elem_of_app in Hi as [Hi | Hi].
            + apply (Hfresh1 _ Hi). apply elem_of_app. right. left.
            + apply (Hfresh2 _ Hi). apply elem_of_app. left.
              apply elem_of_app. right. left.
          - apply NoDup_app. repeat split; [exact Hnd1 | | exact Hnd2].
            intros i H1 H2'. apply (Hfresh2 i H2'). apply elem_of_app. right. exact H1. }
        split.
        { intros i Hi Hacc. apply elem_of_cons in Hi as [-> | Hi]; [exact (Hin Hacc)|].
          apply elem_of_app in Hi as [Hi | Hi].
          - apply (Hfresh1 i Hi). apply elem_of_app. left. exact Hacc.
          - apply (Hfresh2 i Hi). apply elem_of_app. left.
            apply elem_of_app. left. exact Hacc. }
        intros i Hi. apply elem_of_cons in Hi as [-> | Hi].
        { exists x, d. split; [|split; [exact Hx | reflexivity]].
          exists c, x. split; [exact Hchunk|]. split; [exact Hxin | apply reach_here]. }
        apply elem_of_app in Hi as [Hi | Hi]; [exact (Hd1 i Hi) | exact (Hdesc2 i Hi)]. }
  exact (Hloop (chunks c) acc acc' (fun x Hx => Hx) H).
Qed.

(** When [findDepChunks] returns, the id of every chunk below the given
    one is in the array. *)
Lemma findDepChunks_covers (store : gmap ref Chunk) (fuel : nat) :
  forall chunk acc acc',
    findDepChunks store fuel chunk acc = Ok acc' ->
    forall r c, descends store chunk r -> store !! r = Some c -> id c ∈ acc'.
Proof.
  induction fuel as [|fuel IH]; intros chunk acc acc' H; [discriminate H|].
  cbn [findDepChunks] in H. apply obind_Ok in H as (c & Hc & H).
  destruct (store !! chunk) as [c0|] eqn:Hchunk; [|discriminate Hc].
  injection Hc as ->.
  assert (forall cs acc acc',
    (fix forEachChunk (cs : list ref) (acc : list nat) : outcome (list nat) :=
       match cs with
       | [] => Ok acc
       | depChunk :: cs' =>
         d ← deref (store !! depChunk);
         let acc1 := if includes (id d) acc then acc else acc ++ [id d] in
         acc2 ← findDepChunks store fuel depChunk acc1;
         forEachChunk cs' acc2
       end) cs acc = Ok acc' ->
    (forall i, i ∈ acc -> i ∈ acc') /\
    forall x r cr, x ∈ cs -> reach store x r -> store !! r = Some cr -> id cr ∈ acc')
    as Hloop.
  { clear acc acc' H. intros cs. induction cs as [|x cs IHcs]; intros acc acc' H.
    - injection H as <-. split; [trivial|].
      intros y r cr Hy. apply elem_of_nil in Hy. contradiction.
    - apply obind_Ok in H as (d & Hd & H). apply obind_Ok in H as (acc2 & H2 & H).
      destruct (store !! x) as [d0|] eqn:Hx; [|discriminate Hd]. injection Hd as ->.
      apply IHcs in H as [Hmono Hrest].
      pose proof (findDepChunks_adds _ _ _ _ _ H2) as (new & Hacc2 & _).
      assert (forall i, i ∈ acc -> i ∈ acc2) as Hmono1.
      { intros i Hi. rewrite Hacc2. apply elem_of_app. left.
        unfold includes. case_bool_decide; [exact Hi|]. apply elem_of_app. left. exact Hi. }
      assert (id d ∈ acc2) as Hd.
      { rewrite Hacc2. apply elem_of_app. left.
        unfold includes. case_bool_decide as Hin; [exact Hin|].
        apply elem_of_app. right. left. }
      split; [intros i Hi; exact (Hmono i (Hmono1 i Hi))|].
      intros y r cr Hy Hreach Hr. apply elem_of_cons in Hy as [-> | Hy];
        [|exact (Hrest y r cr Hy Hreach Hr)].
      apply Hmono.
      inversion Hreach as [r0 | r0 cx z r' Hcx Hz Hzr]; subst.
      + assert (cr = d) as -> by congruence. exact Hd.
      + apply (IH _ _ _ H2 r cr); [|exact Hr].
        exists cx, z. split; [exact Hcx|]. split; [exact Hz | exact Hzr]. }
  intros r cr (c' & child & Hc' & Hin & Hreach) Hr.
  assert (c' = c) as -> by congruence.
  exact (proj2 (Hloop (chunks c) acc acc' H) child r cr Hin Hreach Hr).
Qed.

(** With a rank on the store [findDepChunks] returns, given a bound
    above the rank of the chunk it starts from. *)
Lemma findDepChunks_ranked (store : gmap ref Chunk) (rank : ref -> nat) (fuel : nat) :
  ranked store rank ->
  forall chunk acc,
    is_Some (store !! chunk) -> rank chunk < fuel ->
    exists acc', findDepChunks store fuel chunk acc = Ok acc'.
Proof.
  intros Hranked. induction fuel as [|fuel IH]; intros chunk acc [c Hc] Hlt; [lia|].
  cbn [findDepChunks]. rewrite Hc. cbn [deref mbind outcome_bind obind].
  pose proof (fun child => Hranked chunk c child Hc) as Hchildren.
  revert acc.
  induction (chunks c) as [|x cs IHcs]; intros acc; [eauto|].
  destruct (Hchildren x ltac:(left)) as [[d Hx] Hrank].
  rewrite Hx. cbn [deref mbind outcome_bind obind].
  destruct (IH x (if includes (id d) acc then acc else acc ++ [id d]))
    as [acc2 H2]; [eauto | lia |].
  rewrite H2. cbn [obind].
  apply IHcs. intros child Hin. apply Hchildren. right. exact Hin.
Qed.

Lemma diamond_store_keys (r : ref) (c : Chunk) :
  diamond_store !! r = Some c -> r = 0 \/ r = 1 \/ r = 2 \/ r = 3.
Proof.
  intros Hr. apply elem_of_dom_2 in Hr. unfold diamond_store in Hr.
  rewrite !dom_insert_L, dom_singleton_L in Hr. set_solver.
Qed.

Lemma diamond_store_ranked : ranked diamond_store diamond_rank.
Proof.
  intros r c child Hr Hin.
  destruct (diamond_store_keys r c Hr) as [-> | [-> | [-> | ->]]];
    vm_compute in Hr; injection Hr as <-; cbn [chunks] in Hin;
    repeat (apply elem_of_cons in Hin as [-> | Hin]);
    try (apply elem_of_nil in Hin; contradiction);
    (split; [eexists; reflexivity | cbn; lia]).
Qed.

(** X2: when [findDepChunks] returns, the array it hands back is the
    given one followed by ids that were not in it, each once, and an id
    is in it exactly when it was in the given array or is the id of a
    chunk below the given chunk. *)
Theorem findDepChunks_collects (store : gmap ref Chunk) (fuel : nat)
    (chunk : ref) (acc acc' : list nat) :
  findDepChunks store fuel chunk acc = Ok acc' ->
  (exists new, acc' = acc ++ new /\ NoDup new /\ forall i, i ∈ new -> i ∉ acc) /\
  forall i,
    i ∈ acc' <->
    i ∈ acc \/ exists r c, descends store chunk r /\ store !! r = Some c /\ id c = i.
Proof.
  intros H.
  pose proof (findDepChunks_adds _ _ _ _ _ H) as (new & Hacc' & Hnd & Hfresh & Hdesc).
  split; [exists new; auto|].
  intros i. split.
  - rewrite Hacc'. intros Hi. apply elem_of_app in Hi as [Hi | Hi]; [left; exact Hi|].
    right. exact (Hdesc i Hi).
  - intros [Hi | (r & c & Hr & Hc & <-)].
    + rewrite Hacc'. apply elem_of_app. left. exact Hi.
    + exact (findDepChunks_covers _ _ _ _ _ H r c Hr Hc).
Qed.

Lemma findDepChunks_collects_witness :
  exists new, [1; 3; 2] = [] ++ new /\ NoDup new /\ forall i, i ∈ new -> i ∉ [].
Proof.
  refine (proj1 (findDepChunks_collects diamond_store 3 0 [] [1; 3; 2] _)).
  vm_compute. reflexivity.
Defined.

(** X3: on a store with a rank, that is without cycles and without
    references that lead nowhere, [findDepChunks] returns as soon as the
    bound on the depth exceeds the rank of the chunk. *)
Theorem findDepChunks_returns_on_ranked (store : gmap ref Chunk)
    (rank : ref -> nat) (fuel : nat) (chunk : ref) (acc : list nat) :
  ranked store rank ->
  is_Some (store !! chunk) ->
  rank chunk < fuel ->
  exists acc', findDepChunks store fuel chunk acc = Ok acc'.
Proof. intros Hranked. apply findDepChunks_ranked. exact Hranked. Qed.

Lemma findDepChunks_returns_on_ranked_witness :
  exists acc', findDepChunks diamond_store 3 0 [] = Ok acc'.
Proof.
  apply (findDepChunks_returns_on_ranked diamond_store diamond_rank 3 0 []).
  - exact diamond_store_ranked.
  - eexists. reflexivity.
  - cbn. lia.
Defined.

(** X4: in any store, [findDepChunks] does not return for a chunk that
    lies on a cycle, however large the bound on the depth. *)
Theorem findDepChunks_never_returns_on_cycle (store : gmap ref Chunk)
    (fuel : nat) (r : ref) (acc res : list nat) :
  on_cycle store r -> findDepChunks store fuel r acc <> Ok res.
Proof. apply findDepChunks_on_cycle. Qed.

Lemma findDepChunks_never_returns_on_cycle_witness :
  findDepChunks cyclic_store 1000 0 [] <> Ok [1; 0].
Proof.
  apply (findDepChunks_never_returns_on_cycle cyclic_store 1000 0 [] [1; 0]).
  exact cyclic_store_on_cycle.
Defined.

(** ** Further properties: the loader-code hook *)

Section LoaderCodeFacts.

Variable asString : list string -> string.
Variable indent : string -> string.
Variable store : gmap ref Chunk.

(** X5: the hook for the local variables does not return for a chunk
    that lies on a cycle, whatever the template helpers do. *)
Theorem localVarsPlugin_never_returns_on_cycle (fuel : nat) (source text : string)
    (chunk : ref) :
  on_cycle store chunk ->
  localVarsPlugin asString indent store fuel source chunk <> Ok text.
Proof.
  intros Hcycle H. unfold localVarsPlugin in H.
  pose proof Hcycle as (c & child & Hc & Hin & _).
  rewrite Hc in H. cbn [deref mbind outcome_bind obind] in H.
  destruct (chunks c) as [|x cs] eqn:Hchunks;
    [apply elem_of_nil in Hin; contradiction|].
  cbn [length Nat.ltb Nat.leb] in H.
  apply obind_Ok in H as (ids & Hids & _).
  exact (findDepChunks_on_cycle store fuel chunk [] ids Hcycle Hids).
Qed.

(** X6: on a store with a rank the hook returns; for a chunk without
    children it returns the source it was given, and otherwise the text
    built from the ids [findDepChunks] collects from the empty array. *)
Theorem localVarsPlugin_returns_on_ranked (rank : ref -> nat) (fuel : nat)
    (source : string) (chunk : ref) (c : Chunk) :
  ranked store rank ->
  store !! chunk = Some c ->
  rank chunk < fuel ->
  (chunks c = [] ->
   localVarsPlugin asString indent store fuel source chunk = Ok source) /\
  (chunks c <> [] ->
   exists ids,
     findDepChunks store fuel chunk [] = Ok ids /\
     localVarsPlugin asString indent store fuel source chunk =
     Ok (asString [source; "var sriHashes = {";
                   indent (String.concat ("," +:+ newline) (map mapChunkId ids));
                   "};"])).
Proof.
  intros Hranked Hc Hlt. unfold localVarsPlugin. rewrite Hc.
  cbn [deref mbind outcome_bind obind]. split.
  - intros ->. reflexivity.
  - intros Hne. destruct (chunks c) as [|x cs]; [contradiction|].
    cbn [length Nat.ltb Nat.leb].
    destruct (findDepChunks_ranked store rank fuel Hranked chunk [])
      as [ids Hids]; [eauto | exact Hlt |].
    exists ids. split; [exact Hids|]. rewrite Hids. reflexivity.
Qed.

End LoaderCodeFacts.

Lemma localVarsPlugin_never_returns_on_cycle_witness :
  localVarsPlugin demo_asString demo_indent cyclic_store 50 "// runtime" 0 <> Ok "".
Proof.
  apply (localVarsPlugin_never_returns_on_cycle demo_asString demo_indent
           cyclic_store 50 "// runtime" "" 0).
  exact cyclic_store_on_cycle.
Defined.

Lemma localVarsPlugin_returns_on_ranked_witness :
  localVarsPlugin demo_asString demo_indent diamond_store 3 "// runtime" 3 =
  Ok "// runtime".
Proof.
  refine (proj1 (localVarsPlugin_returns_on_ranked demo_asString demo_indent
                   diamond_store diamond_rank 3 "// runtime" 3
                   (mkChunk 3 ["d.js"] [] false) _ _ _) _).
  - exact diamond_store_ranked.
  - reflexivity.
  - cbn. lia.
  - reflexivity.
Defined.

(** ** Further properties: the integrity string *)

Lemma mapAlgo_Ok createHash (source part : string) (v : jsval) :
  mapAlgo createHash source v = Ok part -> known createHash v.
Proof.
  destruct v as [| | | | name | |]; try discriminate. cbn [mapAlgo].
  destruct (createHash name) as [digest|] eqn:E; [|discriminate].
  intros _. exists name, digest. auto.
Qed.

Lemma mapM_mapAlgo_Ok createHash (source : string) (algos : list jsval) :
  (exists parts, mapM (mapAlgo createHash source) algos = Ok parts) <->
  Forall (known createHash) algos.
Proof.
  induction algos as [|v algos IH].
  - split; [constructor | intros _; eexists; reflexivity].
  - cbn [mapM]. split.
    + intros [parts H]. apply obind_Ok in H as (part & Hpart & H).
      apply obind_Ok in H as (rest & Hrest & _).
      constructor; [exact (mapAlgo_Ok _ _ _ _ Hpart)|].
      apply IH. eauto.
    + intros H. apply Forall_cons_1 in H as [(name & digest & -> & Hname) H].
      apply IH in H as [rest Hrest]. cbn [mapAlgo]. rewrite Hname, Hrest.
      eexists. reflexivity.
Qed.

Lemma computeIntegrity_Ok_known createHash (algorithms : list jsval) (source : string) :
  (exists digest, computeIntegrity createHash algorithms source = Ok digest) <->
  Forall (known createHash) algorithms.
Proof.
  rewrite <- (mapM_mapAlgo_Ok createHash source). unfold computeIntegrity. split.
  - intros [digest H]. apply obind_Ok in H as (parts & Hparts & _). eauto.
  - intros [parts ->]. eexists. reflexivity.
Qed.

(** X7: [computeIntegrity] returns exactly when every configured
    algorithm is a string that names an algorithm known to crypto; in
    every other case it throws, whatever the text. *)
Theorem computeIntegrity_returns_iff_known createHash (algorithms : list jsval)
    (source : string) :
  ((exists digest, computeIntegrity createHash algorithms source = Ok digest) <->
   Forall (known createHash) algorithms) /\
  (raises (computeIntegrity createHash algorithms source) <->
   ~ Forall (known createHash) algorithms).
Proof.
  pose proof (computeIntegrity_Ok_known createHash algorithms source) as Hiff.
  split; [exact Hiff|]. split.
  - intros [e He] Hall. apply Hiff in Hall as [digest Hd]. congruence.
  - intros Hn.
    pose proof (computeIntegrity_fuel createHash algorithms source) as Hfuel.
    destruct (computeIntegrity createHash algorithms source) as [digest|e|] eqn:E.
    + exfalso. apply Hn, Hiff. eauto.
    + exists e. reflexivity.
    + contradiction.
Qed.

(** X8: an array with an element that is not a string passes the
    constructor, and with the list the constructor stores every
    computation of an integrity string throws. *)
Theorem unchecked_element_throws_later createHash (x : jsval) (l : list jsval)
    (v : jsval) (source : string) :
  v ∈ x :: l ->
  typeof_string v = false ->
  exists algorithms,
    SubresourceIntegrityPlugin (JSArr (x :: l)) = Ok algorithms /\
    raises (computeIntegrity createHash algorithms source).
Proof.
  intros Hin Hv. exists (x :: l). split; [reflexivity|].
  pose proof (computeIntegrity_fuel createHash (x :: l) source) as Hfuel.
  destruct (computeIntegrity createHash (x :: l) source) as [digest|e|] eqn:E.
  - exfalso.
    assert (Forall (known createHash) (x :: l)) as Hall
      by (apply (computeIntegrity_Ok_known createHash (x :: l) source); eauto).
    rewrite Forall_forall in Hall. destruct (Hall v Hin) as (name & d & -> & _).
    discriminate Hv.
  - exists e. reflexivity.
  - contradiction.
Qed.

Lemma unchecked_element_throws_later_witness :
  exists algorithms,
    SubresourceIntegrityPlugin (JSArr [JSStr "sha256"; JSNum 5]) = Ok algorithms /\
    raises (computeIntegrity demoCreateHash algorithms "abc").
Proof.
  apply (unchecked_element_throws_later demoCreateHash (JSStr "sha256") [JSNum 5]
           (JSNum 5) "abc").
  - right. left.
  - reflexivity.
Defined.

(** ** Further properties: the traversal and the handler *)

Section TraversalFacts.

Variable createHash : string -> option (string -> string).
Variable algorithms : list jsval.
Variable store : gmap ref Chunk.

(** A relation between states that holds across marking an id and across
    annotating a chunk of the store holds across the whole traversal. *)
Section Across.

Variable R : state -> state -> Prop.
Hypothesis R_refl : forall st, R st st.
Hypothesis R_trans : forall a b c, R a b -> R b c -> R a c.
Hypothesis R_mark :
  forall st i,
    R st (mkState (assets st) (hashByChunkId st) ({[i]} ∪ visitedByChunkId st)).
Hypothesis R_annotate :
  forall r c deps st st',
    store !! r = Some c ->
    annotateChunk createHash algorithms c deps st = Ok st' -> R st st'.

Lemma mapChunk_across (recurse : ref -> state -> outcome (list nat * state)) :
  (forall chunk st ids st', recurse chunk st = Ok (ids, st') -> R st st') ->
  forall cs acc st ids st',
    mapChunk recurse cs acc st = Ok (ids, st') -> R st st'.
Proof.
  intros Hrec cs. induction cs as [|x cs IH]; intros acc st ids st' H.
  - injection H as _ <-. apply R_refl.
  - cbn [mapChunk] in H. apply obind_Ok in H as ([ids1 st1] & H1 & H).
    exact (R_trans _ _ _ (Hrec _ _ _ _ H1) (IH _ _ _ _ H)).
Qed.

Lemma processChunkRecursive_across (fuel : nat) :
  forall chunk st ids st',
    processChunkRecursive createHash algorithms store fuel chunk st = Ok (ids, st') ->
    R st st'.
Proof.
  induction fuel as [|fuel IH]; intros chunk st ids st' H; [discriminate H|].
  cbn [processChunkRecursive] in H. apply obind_Ok in H as (c & Hc & H).
  destruct (store !! chunk) as [c0|] eqn:Hchunk; [|discriminate Hc].
  injection Hc as ->.
  case_bool_decide as Hvis.
  - injection H as _ <-. apply R_refl.
  - apply obind_Ok in H as ([deps st2] & Hmap & H).
    apply obind_Ok in H as (st3 & Hann & H). injection H as _ <-.
    apply (R_trans _ _ _ (R_mark st (id c))).
    apply (R_trans _ _ _ (mapChunk_across _ IH _ _ _ _ _ Hmap)).
    exact (R_annotate chunk c deps st2 st3 Hchunk Hann).
Qed.

Lemma forEachRoot_across (fuel : nat) (roots : list ref) :
  forall st st',
    forEachRoot createHash algorithms store fuel roots st = Ok st' -> R st st'.
Proof.
  induction roots as [|chunk roots IH]; intros st st' H.
  - injection H as <-. apply R_refl.
  - cbn [forEachRoot] in H. apply obind_Ok in H as (c & _ & H).
    destruct (entry c); [|exact (IH _ _ H)].
    apply obind_Ok in H as ([ids st1] & H1 & H).
    exact (R_trans _ _ _ (processChunkRecursive_across _ _ _ _ _ H1) (IH _ _ H)).
Qed.

End Across.

(** The traversal leaves alone every asset that is not the first file of
    a chunk. *)
Lemma forEachRoot_frame (fuel : nat) (roots : list ref) (st st' : state)
    (key : string) :
  ~ first_file store key ->
  forEachRoot createHash algorithms store fuel roots st = Ok st' ->
  assets st' !! key = assets st !! key.
Proof.
  intros Hkey.
  apply (forEachRoot_across (fun a b => assets b !! key = assets a !! key)).
  - reflexivity.
  - intros a b c Hab Hbc. congruence.
  - reflexivity.
  - intros r c deps a b Hr Hann. unfold annotateChunk in Hann.
    destruct (files c) as [|f rest] eqn:Hfiles; [congruence|].
    apply obind_Ok in Hann as (asset & _ & Hann).
    apply obind_Ok in Hann as (digest & _ & [= <-]). cbn [assets].
    apply lookup_insert_ne. intros ->. apply Hkey. exists r, c, rest. auto.
Qed.

(** The traversal keeps the assets consistent. *)
Lemma forEachRoot_consistent (fuel : nat) (roots : list ref) (st st' : state) :
  forEachRoot createHash algorithms store fuel roots st = Ok st' ->
  (forall key a, assets st !! key = Some a ->
                 asset_consistent createHash algorithms a) ->
  forall key a, assets st' !! key = Some a ->
                asset_consistent createHash algorithms a.
Proof.
  apply (forEachRoot_across
           (fun a b =>
              (forall key x, assets a !! key = Some x ->
                             asset_consistent createHash algorithms x) ->
              forall key x, assets b !! key = Some x ->
                            asset_consistent createHash algorithms x)).
  - intros a Ha. exact Ha.
  - intros a b c Hab Hbc Ha. exact (Hbc (Hab Ha)).
  - intros a i Ha. exact Ha.
  - intros r c deps a b Hr Hann Hall key x Hx. unfold annotateChunk in Hann.
    destruct (files c) as [|f rest] eqn:Hfiles.
    { injection Hann as <-. exact (Hall key x Hx). }
    apply obind_Ok in Hann as (asset & _ & Hann).
    apply obind_Ok in Hann as (digest & Hdigest & [= <-]). cbn [assets] in Hx.
    destruct (decide (f = key)) as [-> | Hne].
    + rewrite lookup_insert_eq in Hx. injection Hx as <-.
      intros h [= <-]. exact Hdigest.
    + rewrite lookup_insert_ne in Hx by exact Hne. exact (Hall key x Hx).
Qed.

(** The traversal records digests only for chunks whose first file is
    an asset. *)
Lemma forEachRoot_hashed_have_assets (fuel : nat) (roots : list ref) (st st' : state) :
  forEachRoot createHash algorithms store fuel roots st = Ok st' ->
  hashed_have_assets store st -> hashed_have_assets store st'.
Proof.
  apply (forEachRoot_across
           (fun a b => hashed_have_assets store a -> hashed_have_assets store b)).
  - intros a Ha. exact Ha.
  - intros a b c Hab Hbc Ha. exact (Hbc (Hab Ha)).
  - intros a i Ha. exact Ha.
  - intros r c deps a b Hr Hann Hinv.
    pose proof (annotateChunk_Ok _ _ _ _ _ _ Hann) as (_ & Hdom & _).
    unfold annotateChunk in Hann.
    destruct (files c) as [|f rest] eqn:Hfiles.
    { injection Hann as <-. exact Hinv. }
    apply obind_Ok in Hann as (asset & Hasset & Hann).
    apply obind_Ok in Hann as (digest & _ & [= <-]).
    destruct (assets a !! f) as [asset0|] eqn:Hf; [|discriminate Hasset].
    intros i Hi. cbn [hashByChunkId fmap list_fmap fst] in Hi.
    cbn [assets] in *. rewrite Hdom.
    apply elem_of_cons in Hi as [-> | Hi].
    + exists r, c, f, rest. repeat split; try assumption.
      apply elem_of_dom. eauto.
    + destruct (Hinv i Hi) as (r' & c' & f' & rest' & H1 & H2 & H3 & H4).
      exists r', c', f', rest'. auto.
Qed.

End TraversalFacts.

Lemma forEachRoot_fuel_plus createHash (algorithms : list jsval)
    (store : gmap ref Chunk) (fuel : nat) (roots : list ref) (st : state) (k : nat) :
  forEachRoot createHash algorithms store fuel roots st <> OutOfFuel ->
  forEachRoot createHash algorithms store (k + fuel) roots st =
  forEachRoot createHash algorithms store fuel roots st.
Proof.
  intros H. induction k as [|k IH]; [reflexivity|].
  cbn [Nat.add]. rewrite forEachRoot_more_fuel; [exact IH|]. rewrite IH. exact H.
Qed.

(** X9: the handler comes to an end on every chunk graph, cyclic ones
    included: with a bound on the depth of the recursion above the
    number of ids in the store it returns or throws, and a larger bound
    gives the same result. *)
Theorem optimizeAssetsPlugin_terminates createHash (algorithms : list jsval)
    (store : gmap ref Chunk) (roots : list ref) (m : gmap string Asset) (fuel : nat) :
  S (size (store_ids store)) <= fuel ->
  optimizeAssetsPlugin createHash algorithms store fuel roots m <> OutOfFuel /\
  optimizeAssetsPlugin createHash algorithms store fuel roots m =
  optimizeAssetsPlugin createHash algorithms store (S (size (store_ids store))) roots m.
Proof.
  intros Hle.
  assert (optimizeAssetsPlugin createHash algorithms store fuel roots m =
          optimizeAssetsPlugin createHash algorithms store
            (S (size (store_ids store))) roots m) as Heq.
  { unfold optimizeAssetsPlugin.
    replace fuel with ((fuel - S (size (store_ids store))) + S (size (store_ids store)))
      by lia.
    rewrite forEachRoot_fuel_plus; [reflexivity|].
    apply forEachRoot_fuel. unfold unvisited.
    apply Nat.lt_succ_r, subseteq_size. set_solver. }
  split; [|exact Heq]. rewrite Heq. apply optimizeAssetsPlugin_returns_or_throws.
Qed.

Lemma optimizeAssetsPlugin_terminates_witness :
  optimizeAssetsPlugin demoCreateHash [JSStr "sha256"] cyclic_store 7 [0; 1]
    {[ "a.js" := mkAsset "A" None; "b.js" := mkAsset "B" None ]} <> OutOfFuel.
Proof.
  refine (proj1 (optimizeAssetsPlugin_terminates demoCreateHash [JSStr "sha256"]
                   cyclic_store [0; 1] _ 7 _)).
  vm_compute. lia.
Defined.

(** X10: a call of [processChunkRecursive] that returns hands back
    nothing and changes nothing when the id of the chunk is marked; else
    it hands back the id of the chunk followed by the other ids it has
    marked, all distinct and none of them marked before, and the marked
    ids afterwards are the ones before and the ones handed back. *)
Theorem processChunkRecursive_returns_new_ids createHash (algorithms : list jsval)
    (store : gmap ref Chunk) (fuel : nat) (chunk : ref) (c : Chunk)
    (st st' : state) (ids : list nat) :
  store !! chunk = Some c ->
  processChunkRecursive createHash algorithms store fuel chunk st = Ok (ids, st') ->
  (id c ∈ visitedByChunkId st -> ids = [] /\ st' = st) /\
  (id c ∉ visitedByChunkId st -> exists deps, ids = id c :: deps) /\
  NoDup ids /\
  (forall i, i ∈ ids -> i ∉ visitedByChunkId st) /\
  visitedByChunkId st' = list_to_set ids ∪ visitedByChunkId st.
Proof.
  intros Hc H.
  pose proof (processChunkRecursive_post _ _ _ _ _ _ _ _ H) as (Hv & Hnd & Hnew & _).
  destruct fuel as [|fuel]; [discriminate H|].
  cbn [processChunkRecursive] in H. rewrite Hc in H.
  cbn [deref mbind outcome_bind obind] in H.
  split; [|split; [|split; [exact Hnd | split; [exact Hnew | exact Hv]]]].
  - intros Hvis. rewrite bool_decide_eq_true_2 in H by exact Hvis.
    injection H as <- <-. auto.
  - intros Hvis. rewrite bool_decide_eq_false_2 in H by exact Hvis.
    apply obind_Ok in H as ([deps st2] & _ & H).
    apply obind_Ok in H as (st3 & _ & [= <- _]). eauto.
Qed.

Lemma processChunkRecursive_returns_new_ids_witness :
  NoDup [0; 1; 3; 2].
Proof.
  refine (proj1 (proj2 (proj2
    (processChunkRecursive_returns_new_ids demoCreateHash [JSStr "sha256"]
       diamond_store 4 0 (mkChunk 0 ["a.js"] [1; 2] true)
       (initial diamond_assets)
       (snd (ok_or ([], initial ∅)
               (processChunkRecursive demoCreateHash [JSStr "sha256"] diamond_store 4 0
                  (initial diamond_assets))))
       [0; 1; 3; 2] _ _)))).
  - reflexivity.
  - vm_compute. reflexivity.
Defined.

(** X11: an asset that is not the first file of any chunk comes out of
    the handler with its text as it was; if it had a non-empty integrity
    it is unchanged, else its integrity is the integrity string of that
    text. *)
Theorem handler_leaves_other_files createHash (algorithms : list jsval)
    (store : gmap ref Chunk) (fuel : nat) (roots : list ref)
    (m final : gmap string Asset) (key : string) (a : Asset) :
  ~ first_file store key ->
  m !! key = Some a ->
  optimizeAssetsPlugin createHash algorithms store fuel roots m = Ok final ->
  source <$> final !! key = Some (source a) /\
  (truthy (integrity a) = true -> final !! key = Some a) /\
  (truthy (integrity a) = false ->
   exists digest,
     computeIntegrity createHash algorithms (source a) = Ok digest /\
     final !! key = Some (mkAsset (source a) (Some digest))).
Proof.
  intros Hkey Ha H. unfold optimizeAssetsPlugin in H.
  apply obind_Ok in H as (st & Hst & Hsweep).
  pose proof (forEachRoot_frame _ _ _ _ _ _ _ key Hkey Hst) as Hframe.
  cbn [initial assets] in Hframe. rewrite Ha in Hframe.
  destruct (sweep_swept createHash algorithms (assets st)) as [_ Hswept].
  specialize (Hswept final Hsweep key). rewrite Hframe in Hswept.
  destruct Hswept as (a' & Ha' & Hfinal). unfold sweepAsset in Ha'.
  destruct (truthy (integrity a)) eqn:Ht.
  - injection Ha' as <-. rewrite Hfinal. split; [reflexivity|].
    split; [reflexivity | discriminate].
  - apply obind_Ok in Ha' as (digest & Hdigest & [= <-]). rewrite Hfinal.
    split; [reflexivity|]. split; [discriminate | eauto].
Qed.

Lemma handler_leaves_other_files_witness :
  source <$> diamond_final !! "logo.svg" = Some "<svg/>".
Proof.
  refine (proj1 (handler_leaves_other_files demoCreateHash [JSStr "sha256"]
                   diamond_store 5 [0; 1; 2; 3] diamond_assets diamond_final
                   "logo.svg" (mkAsset "<svg/>" None) _ _ _)).
  - intros (r & c & rest & Hr & Hfiles).
    destruct (diamond_store_keys r c Hr) as [-> | [-> | [-> | ->]]];
      vm_compute in Hr; injection Hr as <-; discriminate Hfiles.
  - reflexivity.
  - vm_compute. reflexivity.
Defined.

(** X12: if every asset that comes with an integrity has the integrity
    string of its text, then on return from the handler every asset has
    an integrity, and it is the integrity string of the text the asset
    has then. *)
Theorem handler_integrity_matches_text createHash (algorithms : list jsval)
    (store : gmap ref Chunk) (fuel : nat) (roots : list ref)
    (m final : gmap string Asset) :
  (forall key a, m !! key = Some a -> asset_consistent createHash algorithms a) ->
  optimizeAssetsPlugin createHash algorithms store fuel roots m = Ok final ->
  forall key a,
    final !! key = Some a ->
    exists h, integrity a = Some h /\
              computeIntegrity createHash algorithms (source a) = Ok h.
Proof.
  intros Hall H key a' Hfinal. unfold optimizeAssetsPlugin in H.
  apply obind_Ok in H as (st & Hst & Hsweep).
  pose proof (forEachRoot_consistent _ _ _ _ _ _ _ Hst Hall) as Hcons.
  destruct (sweep_swept createHash algorithms (assets st)) as [_ Hswept].
  specialize (Hswept final Hsweep key).
  destruct (assets st !! key) as [a|] eqn:Hkey; [|congruence].
  destruct Hswept as (a'' & Ha'' & Hfinal'). rewrite Hfinal' in Hfinal.
  injection Hfinal as ->. unfold sweepAsset in Ha''.
  destruct (truthy (integrity a)) eqn:Ht.
  - injection Ha'' as <-. destruct (integrity a) as [h|] eqn:Hint; [|discriminate Ht].
    exists h. split; [reflexivity|]. exact (Hcons key a Hkey h Hint).
  - apply obind_Ok in Ha'' as (digest & Hdigest & [= <-]).
    exists digest. split; [reflexivity | exact Hdigest].
Qed.

Lemma handler_integrity_matches_text_witness :
  exists h,
    integrity (mkAsset "C 3:*-*-*-CHUNK-SRI-HASH-3-*-*-*;"
                       (Some "sha256-H(C 3:*-*-*-CHUNK-SRI-HASH-3-*-*-*;)")) = Some h /\
    computeIntegrity demoCreateHash [JSStr "sha256"]
      (source (mkAsset "C 3:*-*-*-CHUNK-SRI-HASH-3-*-*-*;"
                       (Some "sha256-H(C 3:*-*-*-CHUNK-SRI-HASH-3-*-*-*;)"))) = Ok h.
Proof.
  apply (handler_integrity_matches_text demoCreateHash [JSStr "sha256"]
           diamond_store 5 [0; 1; 2; 3] diamond_assets diamond_final) with (key := "c.js").
  - apply map_Forall_to_list. vm_compute. repeat constructor; discriminate.
  - vm_compute. reflexivity.
  - vm_compute. reflexivity.
Defined.

Lemma lone_store_unique : unique_ids lone_store.
Proof.
  intros r1 r2 c1 c2 H1 H2 _. unfold lone_store in *.
  apply lookup_singleton_Some in H1 as [<- _].
  apply lookup_singleton_Some in H2 as [<- _]. reflexivity.
Qed.

(** X13: when the first file of a chunk that is a root or below a root
    is not a key of the asset map, the handler does not return: it
    throws.  (Distinct chunks are taken to have distinct ids.) *)
Theorem missing_first_file_throws createHash (algorithms : list jsval)
    (store : gmap ref Chunk) (roots : list ref) (m : gmap string Asset)
    (root r : ref) (rc c : Chunk) (f : string) (rest : list string) :
  unique_ids store ->
  root ∈ roots -> store !! root = Some rc -> entry rc = true ->
  reach store root r -> store !! r = Some c ->
  files c = f :: rest ->
  m !! f = None ->
  (forall fuel final,
     optimizeAssetsPlugin createHash algorithms store fuel roots m <> Ok final) /\
  raises (optimizeAssetsPlugin createHash algorithms store
            (S (size (store_ids store))) roots m).
Proof.
  intros Huniq Hin Hroot Hentry Hreach Hr Hfiles Hm.
  assert (forall fuel final,
     optimizeAssetsPlugin createHash algorithms store fuel roots m <> Ok final) as Hno.
  { intros fuel final H. unfold optimizeAssetsPlugin in H.
    apply obind_Ok in H as (st & Hst & _).
    pose proof (forEachRoot_hashed_have_assets _ _ _ _ _ _ _ Hst) as Hassets.
    pose proof (forEachRoot_inv _ _ _ _ _ _ _ Hst) as (_ & _ & Hdom & Hsettled & Hroots).
    assert (forall i, i ∈ visitedByChunkId st -> settled store st i) as Hall.
    { apply (Hsettled Huniq). cbn. intros i Hi. set_solver. }
    pose proof (reach_visited store st Hall root r Hreach rc c Hroot
                  (Hroots root rc Hin Hroot Hentry) Hr) as Hvis.
    destruct (Hall _ Hvis r c Hr eq_refl) as [_ Hhashed].
    assert (files c <> []) as Hne by (rewrite Hfiles; discriminate).
    destruct Hassets with (i := id c) as (r' & c' & f' & rest' & Hr' & Hid & Hf' & Hdomf).
    { intros i Hi. cbn in Hi. apply elem_of_nil in Hi. contradiction. }
    { exact (Hhashed Hne). }
    assert (r' = r) as -> by exact (Huniq _ _ _ _ Hr' Hr Hid).
    assert (c' = c) as -> by congruence.
    assert (f' = f) as -> by congruence.
    rewrite Hdom in Hdomf. cbn [initial assets] in Hdomf.
    apply elem_of_dom in Hdomf as [a Ha]. congruence. }
  split; [exact Hno|].
  pose proof (optimizeAssetsPlugin_returns_or_throws createHash algorithms store roots m)
    as Hfuel.
  destruct (optimizeAssetsPlugin createHash algorithms store
              (S (size (store_ids store))) roots m) as [final|e|] eqn:E.
  - exfalso. exact (Hno _ _ E).
  - exists e. reflexivity.
  - contradiction.
Qed.

Lemma missing_first_file_throws_witness :
  raises (optimizeAssetsPlugin demoCreateHash [JSStr "sha256"] lone_store
            (S (size (store_ids lone_store))) [0] ∅).
Proof.
  refine (proj2 (missing_first_file_throws demoCreateHash [JSStr "sha256"]
                   lone_store [0] ∅ 0 0 lone_chunk lone_chunk "main.js" []
                   _ _ _ _ _ _ _ _)).
  - exact lone_store_unique.
  - left.
  - reflexivity.
  - reflexivity.
  - apply reach_here.
  - reflexivity.
  - reflexivity.
  - reflexivity.
Defined.

Lemma rsSource_first_occurrence (text : string) (log : list (nat * string))
    (l1 l2 : list nat) (d : nat) (h pre post : string) :
  text = pre +:+ makePlaceholder d +:+ post ->
  String.index 0 (makePlaceholder d) text = Some (String.length pre) ->
  Forall (absent_from text) (l1 ++ l2) ->
  hashOf log d = Some h ->
  rsSource (spliceDeps text log (l1 ++ d :: l2)) = pre +:+ h +:+ post.
Proof.
  intros Htext Hidx Habs Hh.
  rewrite (spliceDeps_one_present _ _ _ _ _ _ Habs Hidx), Hh.
  change (default "" (Some h)) with h.
  rewrite Htext, substring_0_app.
  rewrite <- string_length_app, <- (string_app_assoc pre (makePlaceholder d) post).
  rewrite string_drop_app. reflexivity.
Qed.

(** X14: for a chunk with a single child that has no children, both not
    yet marked and with different first files: the child's file is
    hashed as it is, and the parent is hashed after the digest of the
    child has taken the place of the first occurrence of the child's
    placeholder in the parent's text. *)
Theorem child_digest_spliced_before_parent_hashed createHash (algorithms : list jsval)
    (store : gmap ref Chunk) (fuel : nat) (a b : ref) (ca cb : Chunk)
    (fa fb : string) (resta restb : list string) (A B : Asset) (st : state)
    (pre post ha hb : string) :
  store !! a = Some ca -> chunks ca = [b] -> files ca = fa :: resta ->
  store !! b = Some cb -> chunks cb = [] -> files cb = fb :: restb ->
  id ca <> id cb -> fa <> fb ->
  id ca ∉ visitedByChunkId st -> id cb ∉ visitedByChunkId st ->
  assets st !! fa = Some A -> assets st !! fb = Some B ->
  source A = pre +:+ makePlaceholder (id cb) +:+ post ->
  String.index 0 (makePlaceholder (id cb)) (source A) = Some (String.length pre) ->
  computeIntegrity createHash algorithms (source B) = Ok hb ->
  computeIntegrity createHash algorithms (pre +:+ hb +:+ post) = Ok ha ->
  processChunkRecursive createHash algorithms store (S (S fuel)) a st =
  Ok ([id ca; id cb],
      mkState (<[fa := mkAsset (pre +:+ hb +:+ post) (Some ha)]>
                 (<[fb := mkAsset (source B) (Some hb)]> (assets st)))
              ((id ca, ha) :: (id cb, hb) :: hashByChunkId st)
              ({[id cb]} ∪ ({[id ca]} ∪ visitedByChunkId st))).
Proof.
  intros Ha Hcha Hfa Hb Hchb Hfb Hid Hf Hva Hvb HA HB Htext Hidx Hhb Hha.
  set (marked := {[id cb]} ∪ ({[id ca]} ∪ visitedByChunkId st)).
  set (st1 := mkState (assets st) (hashByChunkId st) marked).
  set (st2 := mkState (<[fb := mkAsset (source B) (Some hb)]> (assets st))
                      ((id cb, hb) :: hashByChunkId st) marked).
  assert (annotateChunk createHash algorithms cb [] st1 = Ok st2) as Hchild.
  { unfold annotateChunk. rewrite Hfb. subst st1. cbn [assets hashByChunkId].
    rewrite HB. outcome_simpl.
    change (spliceDeps (source B) (hashByChunkId st) [])
      with (newReplaceSource (source B)).
    rewrite rsSource_untouched, Hhb. reflexivity. }
  assert (annotateChunk createHash algorithms ca [id cb] st2 =
          Ok (mkState (<[fa := mkAsset (pre +:+ hb +:+ post) (Some ha)]> (assets st2))
                      ((id ca, ha) :: hashByChunkId st2) marked)) as Hparent.
  { unfold annotateChunk. rewrite Hfa. subst st2. cbn [assets hashByChunkId].
    rewrite lookup_insert_ne by (intros E; exact (Hf (eq_sym E))).
    rewrite HA. outcome_simpl.
    rewrite (rsSource_first_occurrence (source A) _ [] [] (id cb) hb pre post Htext Hidx).
    - rewrite Hha. reflexivity.
    - constructor.
    - cbn [hashOf]. rewrite decide_True by reflexivity. reflexivity. }
  rewrite processChunkRecursive_S, Ha. outcome_simpl.
  rewrite bool_decide_eq_false_2 by exact Hva.
  rewrite Hcha. cbn [mapChunk]. rewrite processChunkRecursive_S, Hb. outcome_simpl.
  cbn [visitedByChunkId assets hashByChunkId].
  rewrite bool_decide_eq_false_2 by set_solver.
  rewrite Hchb. cbn [mapChunk]. outcome_simpl.
  fold marked. fold st1. rewrite Hchild. cbn [obind app].
  rewrite Hparent. reflexivity.
Qed.

Lemma child_digest_spliced_before_parent_hashed_witness :
  processChunkRecursive demoCreateHash [JSStr "sha256"] chain_store 2 0
    (initial chain_assets) =
  Ok ([0; 1],
      mkState (<["p.js" := mkAsset ("x=" +:+ "sha256-H(Q)" +:+ ";")
                                   (Some "sha256-H(x=sha256-H(Q);)")]>
                 (<["q.js" := mkAsset "Q" (Some "sha256-H(Q)")]> chain_assets))
              [(0, "sha256-H(x=sha256-H(Q);)"); (1, "sha256-H(Q)")]
              ({[1]} ∪ ({[0]} ∪ ∅))).
Proof.
  apply (child_digest_spliced_before_parent_hashed demoCreateHash [JSStr "sha256"]
           chain_store 0 0 1 (mkChunk 0 ["p.js"] [1] true) (mkChunk 1 ["q.js"] [] false)
           "p.js" "q.js" [] [] (mkAsset "x=*-*-*-CHUNK-SRI-HASH-1-*-*-*;" None)
           (mkAsset "Q" None) (initial chain_assets) "x=" ";"
           "sha256-H(x=sha256-H(Q);)" "sha256-H(Q)");
    try reflexivity; try discriminate; try (cbn; set_solver).
Defined.

(** ** Further properties: markup tags *)

(** X15: [getTagSrc] reads [href] when it is a non-empty string and
    [src] otherwise; with neither of them a non-empty string the result
    is not truthy, so [filterTag] rejects the tag. *)
Theorem getTagSrc_prefers_href (tag : Tag) :
  (forall h, attributes tag !! "href" = Some h -> h <> "" ->
             getTagSrc tag = Some (strip_query h)) /\
  (forall s, truthy (attributes tag !! "href") = false ->
             attributes tag !! "src" = Some s -> s <> "" ->
             getTagSrc tag = Some (strip_query s)) /\
  (truthy (attributes tag !! "href") = false ->
   truthy (attributes tag !! "src") = false ->
   truthy (getTagSrc tag) = false /\ filterTag tag = false).
Proof.
  unfold filterTag, getTagSrc, js_or. split; [|split].
  - intros h -> Hh. apply String.eqb_neq in Hh.
    cbn [truthy]. rewrite Hh. cbn [negb truthy]. rewrite Hh. reflexivity.
  - intros s -> -> Hs. apply String.eqb_neq in Hs.
    cbn [truthy]. rewrite Hs. reflexivity.
  - intros H1 H2. rewrite H1. cbv iota. rewrite H2. cbv iota. rewrite H2.
    split; [reflexivity | apply andb_false_r].
Qed.

Example getTagSrc_href_over_src :
  getTagSrc (mkTag "link" {[ "href" := "style.css?abc"; "src" := "other.js" ]}) =
  Some "style.css".
Proof. reflexivity. Qed.

(** X16: [strip_query] cuts off at most one ending: the text it is given
    is the result followed by nothing, or by a question mark and one or
    more letters and digits. *)
Theorem strip_query_cuts_one_query (s : string) :
  exists q,
    s = strip_query s +:+ q /\
    (q = "" \/ exists q', q = String "?" q' /\ q' <> "" /\ all_alnum q' = true).
Proof.
  induction s as [|c rest (q & Hq & Hshape)].
  - exists "". split; [reflexivity | left; reflexivity].
  - rewrite strip_query_cons. destruct (query_matches (String c rest)) eqn:Hm.
    + exists (String c rest). split; [reflexivity|]. right.
      cbn [query_matches] in Hm.
      apply andb_prop in Hm as [Hm Halnum]. apply andb_prop in Hm as [Hc Hrest].
      apply Ascii.eqb_eq in Hc. subst c. exists rest.
      split; [reflexivity|]. split; [|exact Halnum].
      intros ->. discriminate Hrest.
    + exists q. split; [|exact Hshape].
      rewrite string_app_cons. f_equal. exact Hq.
Qed.

(** Stripping is not idempotent: a second query comes off at a second
    call. *)
Example strip_query_twice :
  strip_query "a.js?b?c" = "a.js?b" /\ strip_query (strip_query "a.js?b?c") = "a.js".
Proof. split; reflexivity. Qed.

Section TagFacts.

Variable path_relative : string -> string -> string.
Variable path_resolve : string -> string -> string -> string.
Variable path_dirname : string -> string.
Variable outputPath : string.
Variable publicPath : option string.
Variable filename : string.
Variable compilationAssets : gmap string Asset.

#[local] Abbreviation assetKey' :=
  (assetKey path_relative path_resolve path_dirname outputPath publicPath filename).
#[local] Abbreviation processTag' :=
  (processTag path_relative path_resolve path_dirname outputPath publicPath filename
              compilationAssets).
#[local] Abbreviation processTags' :=
  (processTags path_relative path_resolve path_dirname outputPath publicPath filename
               compilationAssets).
#[local] Abbreviation supportHtmlWebpack' :=
  (supportHtmlWebpack path_relative path_resolve path_dirname outputPath publicPath
                      filename compilationAssets).

Lemma filterTag_getTagSrc (tag : Tag) :
  filterTag tag = true -> exists ref, getTagSrc tag = Some ref /\ ref <> "".
Proof.
  unfold filterTag. intros H. apply andb_prop in H as [_ H].
  destruct (getTagSrc tag) as [ref|]; [|discriminate H].
  exists ref. split; [reflexivity|]. intros ->. discriminate H.
Qed.

(** What [processTag] does to a tag that passes [filterTag]. *)
Lemma processTag_filtered (tag : Tag) (ref : string) (warnings : list exn) :
  getTagSrc tag = Some ref ->
  (exists checksum,
     getIntegrityChecksumForAsset compilationAssets (assetKey' ref) = Some checksum /\
     checksum <> "" /\
     processTag' tag warnings =
     Ok (mkTag (tagName tag)
               (<["crossorigin" := "anonymous"]>
                  (<["integrity" := checksum]> (attributes tag))),
         warnings)) \/
  (truthy (getIntegrityChecksumForAsset compilationAssets (assetKey' ref)) = false /\
   processTag' tag warnings = Ok (tag, warnings ++ [unprotected (assetKey' ref)])).
Proof.
  intros Href. unfold processTag. rewrite Href. outcome_simpl.
  destruct (getIntegrityChecksumForAsset compilationAssets (assetKey' ref))
    as [checksum|] eqn:Hsum.
  - destruct (truthy (Some checksum)) eqn:Ht.
    + left. exists checksum. split; [reflexivity|]. split; [|reflexivity].
      intros ->. discriminate Ht.
    + right. split; reflexivity.
  - right. split; reflexivity.
Qed.

(** X17: on a tag that passes [filterTag], [processTag] does not throw.
    It either leaves the tag as it is and adds one warning that names
    the asset key, or it adds no warning and changes the tag in the
    attributes [integrity] and [crossorigin] only. *)
Theorem processTag_annotates_or_warns (tag : Tag) (warnings : list exn) :
  filterTag tag = true ->
  exists tag' warnings',
    processTag' tag warnings = Ok (tag', warnings') /\
    tagName tag' = tagName tag /\
    (forall k, k <> "integrity" -> k <> "crossorigin" ->
               attributes tag' !! k = attributes tag !! k) /\
    ((warnings' = warnings /\
      attributes tag' !! "crossorigin" = Some "anonymous" /\
      truthy (attributes tag' !! "integrity") = true) \/
     (tag' = tag /\ exists key, warnings' = warnings ++ [unprotected key])).
Proof.
  intros Hfilter. destruct (filterTag_getTagSrc tag Hfilter) as (ref & Href & _).
  destruct (processTag_filtered tag ref warnings Href)
    as [(checksum & Hsum & Hne & ->) | [Hfalsy ->]].
  - eexists. eexists. split; [reflexivity|]. cbn [tagName attributes].
    split; [reflexivity|]. split.
    + intros k Hk1 Hk2. rewrite !lookup_insert_ne by congruence. reflexivity.
    + left. split; [reflexivity|]. split; [apply lookup_insert_eq|].
      rewrite lookup_insert_ne by discriminate. rewrite lookup_insert_eq.
      cbn [truthy]. apply String.eqb_neq in Hne. rewrite Hne. reflexivity.
  - eexists. eexists. split; [reflexivity|]. split; [reflexivity|].
    split; [reflexivity|]. right. split; [reflexivity | eauto].
Qed.

(** The loop over one list of tags. *)
Lemma processTags_shape (tags : list Tag) :
  forall warnings,
    exists tags' new,
      processTags' tags warnings = Ok (tags', warnings ++ new) /\
      tagName <$> tags' = tagName <$> tags /\
      Forall2 (fun t t' => filterTag t = false -> t' = t) tags tags' /\
      length new <= length (filter (fun t => filterTag t = true) tags).
Proof.
  induction tags as [|tag tags IH]; intros warnings.
  - exists [], []. rewrite app_nil_r. repeat split; try constructor.
  - cbn [processTags]. destruct (filterTag tag) eqn:Hfilter.
    + destruct (filterTag_getTagSrc tag Hfilter) as (ref & Href & _).
      destruct (processTag_filtered tag ref warnings Href)
        as [(checksum & _ & _ & ->) | [_ ->]]; outcome_simpl.
      * destruct (IH warnings) as (tags' & new & -> & Hnames & Hsame & Hlen).
        outcome_simpl. eexists. exists new. split; [reflexivity|].
        cbn [fmap list_fmap tagName]. split; [f_equal; exact Hnames|].
        split; [constructor; [congruence | exact Hsame]|].
        rewrite filter_cons_True by exact Hfilter. cbn [length]. lia.
      * destruct (IH (warnings ++ [unprotected (assetKey' ref)]))
          as (tags' & new & -> & Hnames & Hsame & Hlen).
        outcome_simpl. eexists. exists (unprotected (assetKey' ref) :: new).
        split; [rewrite <- app_assoc; reflexivity|].
        cbn [fmap list_fmap]. split; [f_equal; exact Hnames|].
        split; [constructor; [reflexivity | exact Hsame]|].
        rewrite filter_cons_True by exact Hfilter. cbn [length]. lia.
    + outcome_simpl. destruct (IH warnings) as (tags' & new & -> & Hnames & Hsame & Hlen).
      outcome_simpl. eexists. exists new. split; [reflexivity|].
      cbn [fmap list_fmap]. split; [f_equal; exact Hnames|].
      split; [constructor; [reflexivity | exact Hsame]|].
      rewrite filter_cons_False by congruence. exact Hlen.
Qed.

(** X18: [supportHtmlWebpack] returns on all tags: both lists keep
    their tag names in order, a tag that does not pass [filterTag] is
    unchanged, the warnings there were stay in front, and at most one
    warning is added per tag that passes. *)
Theorem supportHtmlWebpack_returns (head body : list Tag) (warnings : list exn) :
  exists head' body' new,
    supportHtmlWebpack' head body warnings = Ok (head', body', warnings ++ new) /\
    tagName <$> head' = tagName <$> head /\
    tagName <$> body' = tagName <$> body /\
    Forall2 (fun t t' => filterTag t = false -> t' = t) head head' /\
    Forall2 (fun t t' => filterTag t = false -> t' = t) body body' /\
    length new <= length (filter (fun t => filterTag t = true) (head ++ body)).
Proof.
  unfold supportHtmlWebpack.
  destruct (processTags_shape head warnings) as (head' & new1 & -> & Hn1 & Hs1 & Hl1).
  outcome_simpl.
  destruct (processTags_shape body (warnings ++ new1))
    as (body' & new2 & -> & Hn2 & Hs2 & Hl2).
  outcome_simpl. exists head', body', (new1 ++ new2).
  split; [rewrite app_assoc; reflexivity|].
  repeat (split; [assumption|]).
  rewrite filter_app, !length_app. lia.
Qed.

End TagFacts.

Lemma processTag_annotates_or_warns_witness :
  exists tag' warnings',
    demo_processTag app_assets (script_tag "missing.js") [] = Ok (tag', warnings') /\
    tagName tag' = "script" /\
    (forall k, k <> "integrity" -> k <> "crossorigin" ->
               attributes tag' !! k = attributes (script_tag "missing.js") !! k) /\
    ((warnings' = [] /\
      attributes tag' !! "crossorigin" = Some "anonymous" /\
      truthy (attributes tag' !! "integrity") = true) \/
     (tag' = script_tag "missing.js" /\
      exists key, warnings' = [] ++ [unprotected key])).
Proof.
  apply (processTag_annotates_or_warns demo_relative demo_resolve demo_dirname
           "/out" None "index.html" app_assets (script_tag "missing.js") []).
  reflexivity.
Defined.

(** ** Further properties: from the handler to the tags *)

Lemma handler_assets_truthy createHash (algorithms : list jsval)
    (store : gmap ref Chunk) (fuel : nat) (roots : list ref)
    (m final : gmap string Asset) (key : string) :
  algorithms <> [] ->
  optimizeAssetsPlugin createHash algorithms store fuel roots m = Ok final ->
  key ∈ dom m ->
  exists a checksum,
    final !! key = Some a /\ integrity a = Some checksum /\ checksum <> "".
Proof.
  intros Hne H Hkey. unfold optimizeAssetsPlugin in H.
  apply obind_Ok in H as (st & Hst & Hsweep).
  apply forEachRoot_inv in Hst as (_ & _ & Hdom & _). cbn [initial assets] in Hdom.
  rewrite <- Hdom in Hkey. apply elem_of_dom in Hkey as [a Ha].
  destruct (sweep_swept createHash algorithms (assets st)) as [_ Hswept].
  specialize (Hswept final Hsweep key). rewrite Ha in Hswept.
  destruct Hswept as (a' & Ha' & Hfinal). unfold sweepAsset in Ha'.
  destruct (truthy (integrity a)) eqn:Ht.
  - injection Ha' as <-. destruct (integrity a) as [h|] eqn:Hint; [|discriminate Ht].
    exists a, h. split; [exact Hfinal|]. split; [exact Hint|].
    intros ->. discriminate Ht.
  - apply obind_Ok in Ha' as (digest & Hdigest & [= <-]).
    exists (mkAsset (source a) (Some digest)), digest.
    split; [exact Hfinal|]. split; [reflexivity|].
    pose proof (computeIntegrity_truthy _ _ _ _ Hne Hdigest) as Htruthy.
    intros ->. discriminate Htruthy.
Qed.

(** X19: with at least one algorithm configured, once the handler has
    returned, a tag with a reference whose asset key is a key of the
    asset map the handler was given gets the integrity of that asset
    and [crossorigin], and no warning is added. *)
Theorem tag_after_handler_is_annotated createHash (algorithms : list jsval)
    (store : gmap ref Chunk) (fuel : nat) (roots : list ref)
    (m final : gmap string Asset)
    (path_relative : string -> string -> string)
    (path_resolve : string -> string -> string -> string)
    (path_dirname : string -> string)
    (outputPath : string) (publicPath : option string) (filename : string)
    (tag : Tag) (ref : string) (warnings : list exn) :
  algorithms <> [] ->
  optimizeAssetsPlugin createHash algorithms store fuel roots m = Ok final ->
  getTagSrc tag = Some ref ->
  assetKey path_relative path_resolve path_dirname outputPath publicPath filename ref
    ∈ dom m ->
  exists a checksum,
    final !! assetKey path_relative path_resolve path_dirname outputPath publicPath
                      filename ref = Some a /\
    integrity a = Some checksum /\
    processTag path_relative path_resolve path_dirname outputPath publicPath filename
               final tag warnings =
    Ok (mkTag (tagName tag)
              (<["crossorigin" := "anonymous"]>
                 (<["integrity" := checksum]> (attributes tag))),
        warnings).
Proof.
  intros Hne H Href Hkey.
  destruct (handler_assets_truthy _ _ _ _ _ _ _ _ Hne H Hkey)
    as (a & checksum & Ha & Hint & Hck).
  exists a, checksum. split; [exact Ha|]. split; [exact Hint|].
  unfold processTag. rewrite Href. outcome_simpl.
  unfold getIntegrityChecksumForAsset. rewrite Ha. cbn [mbind option_bind].
  rewrite Hint. cbn [truthy]. apply String.eqb_neq in Hck. rewrite Hck. reflexivity.
Qed.

Lemma tag_after_handler_is_annotated_witness :
  exists a checksum,
    diamond_final !! "d.js" = Some a /\
    integrity a = Some checksum /\
    demo_processTag diamond_final (script_tag "d.js?abc") [] =
    Ok (mkTag "script"
              (<["crossorigin" := "anonymous"]>
                 (<["integrity" := checksum]> {[ "src" := "d.js?abc" ]})),
        []).
Proof.
  apply (tag_after_handler_is_annotated demoCreateHash [JSStr "sha256"] diamond_store
           5 [0; 1; 2; 3] diamond_assets diamond_final
           demo_relative demo_resolve demo_dirname "/out" None "index.html"
           (script_tag "d.js?abc") "d.js" []).
  - discriminate.
  - vm_compute. reflexivity.
  - reflexivity.
  - apply elem_of_dom. eexists. reflexivity.
Defined.

(** X20: when none of the chunks of the compilation is a root, the
    traversal does nothing, so the handler only gives every asset that
    lacks one the integrity string of its text: the texts stay as they
    are, placeholders included. *)
Theorem no_root_no_splicing createHash (algorithms : list jsval)
    (store : gmap ref Chunk) (fuel : nat) (roots : list ref)
    (m : gmap string Asset) :
  (forall r, r ∈ roots -> exists c, store !! r = Some c /\ entry c = false) ->
  forEachRoot createHash algorithms store fuel roots (initial m) = Ok (initial m) /\
  optimizeAssetsPlugin createHash algorithms store fuel roots m =
  sweep createHash algorithms m.
Proof.
  intros Hroots.
  assert (forall st, forEachRoot createHash algorithms store fuel roots st = Ok st) as H.
  { induction roots as [|r roots IH]; intros st; [reflexivity|].
    cbn [forEachRoot]. destruct (Hroots r) as (c & Hc & He); [left|].
    rewrite Hc. outcome_simpl. rewrite He. apply IH. intros r' Hr'. apply Hroots. right. exact Hr'. }
  split; [apply H|]. unfold optimizeAssetsPlugin. rewrite H. reflexivity.
Qed.

Lemma no_root_no_splicing_witness :
  optimizeAssetsPlugin demoCreateHash [JSStr "sha256"] diamond_store 0 [1; 2; 3]
                       diamond_assets =
  sweep demoCreateHash [JSStr "sha256"] diamond_assets.
Proof.
  refine (proj2 (no_root_no_splicing demoCreateHash [JSStr "sha256"] diamond_store
                   0 [1; 2; 3] diamond_assets _)).
  intros r Hr.
  repeat (apply elem_of_cons in Hr as [-> | Hr]);
    try (apply elem_of_nil in Hr; contradiction);
    eexists; split; reflexivity.
Defined.

(** ** Further properties: one placeholder inside another *)

Lemma string_of_uint_digits (d : Decimal.uint) :
  all_digits (NilEmpty.string_of_uint d) = true.
Proof. induction d; cbn [NilEmpty.string_of_uint all_digits]; auto. Qed.

Lemma string_of_id_digits (i : nat) : all_digits (string_of_id i) = true.
Proof.
  unfold string_of_id, NilZero.string_of_uint.
  destruct (Nat.to_uint i); try apply string_of_uint_digits. reflexivity.
Qed.

Lemma prefix_app (a x y : string) :
  String.prefix (a +:+ x) (a +:+ y) = String.prefix x y.
Proof.
  induction a as [|c a IH]; [reflexivity|].
  rewrite !string_app_cons. cbn [String.prefix].
  destruct (ascii_dec c c) as [_ | Hne]; [exact IH | contradiction].
Qed.

(** Two texts of digits that are followed by the same ending, one a
    prefix of the other, are the same text. *)
Lemma digits_prefix_eq (x y : string) :
  all_digits x = true -> all_digits y = true ->
  String.prefix (x +:+ "-*-*-*") (y +:+ "-*-*-*") = true -> x = y.
Proof.
  revert y. induction x as [|c x IH]; intros [|d y] Hx Hy H.
  - reflexivity.
  - exfalso. rewrite string_app_nil_l, string_app_cons in H. cbn [String.prefix] in H.
    cbn [all_digits] in Hy. apply andb_prop in Hy as [Hd _].
    destruct (ascii_dec "-" d) as [<- | _]; [discriminate Hd | discriminate H].
  - exfalso. rewrite string_app_nil_l, string_app_cons in H. cbn [String.prefix] in H.
    cbn [all_digits] in Hx. apply andb_prop in Hx as [Hc _].
    destruct (ascii_dec c "-") as [-> | _]; [discriminate Hc | discriminate H].
  - rewrite !string_app_cons in H. cbn [String.prefix] in H.
    cbn [all_digits] in Hx, Hy.
    apply andb_prop in Hx as [_ Hx]. apply andb_prop in Hy as [_ Hy].
    destruct (ascii_dec c d) as [-> | _]; [|discriminate H].
    f_equal. exact (IH y Hx Hy H).
Qed.

(** The letter C is at one place only of a placeholder. *)
Lemma get_C_digits (x : string) (n : nat) :
  all_digits x = true -> String.get n (x +:+ "-*-*-*") <> Some "C"%char.
Proof.
  revert n. induction x as [|c x IH]; intros n Hx.
  - rewrite string_app_nil_l.
    do 7 (destruct n as [|n]; [discriminate|]). discriminate.
  - rewrite string_app_cons. cbn [all_digits] in Hx.
    apply andb_prop in Hx as [Hc Hx].
    destruct n as [|n]; cbn [String.get]; [|exact (IH n Hx)].
    intros [= ->]. discriminate Hc.
Qed.

Lemma get_C_head (q : nat) :
  String.get q "*-*-*-CHUNK-SRI-HASH-" = Some "C"%char -> q = 6.
Proof.
  intros H.
  do 21 (destruct q as [|q]; [first [discriminate H | reflexivity]|]).
  discriminate H.
Qed.

Lemma get_C_placeholder (j q : nat) :
  String.get q (makePlaceholder j) = Some "C"%char -> q = 6.
Proof.
  unfold makePlaceholder. intros H.
  destruct (Nat.lt_ge_cases q 21) as [Hlt | Hge].
  - rewrite <- append_correct1 in H by exact Hlt. exact (get_C_head q H).
  - exfalso. replace q with ((q - 21) + String.length "*-*-*-CHUNK-SRI-HASH-") in H
      by (cbn [String.length]; lia).
    rewrite <- append_correct2 in H.
    exact (get_C_digits _ _ (string_of_id_digits j) H).
Qed.

(** X21: the placeholder of one id does not occur inside the placeholder
    of another id, so looking for the one in a text that is the other
    finds nothing. *)
Theorem placeholder_not_inside_other (i j : nat) :
  i <> j -> String.index 0 (makePlaceholder i) (makePlaceholder j) = None.
Proof.
  intros Hne.
  destruct (String.index 0 (makePlaceholder i) (makePlaceholder j)) as [k|] eqn:Hidx;
    [exfalso | reflexivity].
  pose proof (index_correct1 _ _ _ _ Hidx) as Hsub.
  assert (k = 0) as ->.
  { assert (String.get (6 + k) (makePlaceholder j) = Some "C"%char) as HC.
    { rewrite <- (substring_correct1 (makePlaceholder j) k
                   (String.length (makePlaceholder i)) 6)
        by (rewrite makePlaceholder_length; lia).
      rewrite Hsub. reflexivity. }
    apply get_C_placeholder in HC. lia. }
  apply prefix_correct in Hsub. unfold makePlaceholder in Hsub.
  rewrite prefix_app in Hsub.
  apply digits_prefix_eq in Hsub; try apply string_of_id_digits.
  exact (Hne (string_of_id_inj _ _ Hsub)).
Qed.

Lemma placeholder_not_inside_other_witness :
  String.index 0 (makePlaceholder 1) (makePlaceholder 11) = None.
Proof. apply (placeholder_not_inside_other 1 11). lia. Defined.

Example supportHtmlWebpack_demo :
  demo_supportHtmlWebpack app_assets
    [script_tag "app.js?abc123"; mkTag "meta" {[ "src" := "app.js" ]}]
    [script_tag "missing.js"] [] =
  Ok ([mkTag "script"
             (<["crossorigin" := "anonymous"]>
                (<["integrity" := "sha256-AAAA"]> {[ "src" := "app.js?abc123" ]}));
       mkTag "meta" {[ "src" := "app.js" ]}],
      [script_tag "missing.js"],
      [unprotected "missing.js"]).
Proof. reflexivity. Qed.
